(** * dcr: inventory selection, dispatch and reporting

    A shallow embedding of [dcr.go].  Go slices are modelled with their
    backing arrays in an explicit store, because the two filter functions
    of the program build their result inside the storage of their
    argument ([filtered := servers[:0]] followed by [append]). *)

From Stdlib Require Import ZArith String Ascii.
From stdpp Require Import base option list strings numbers pretty.

Local Open Scope string_scope.
Local Open Scope list_scope.
Local Open Scope nat_scope.

(** ** Inventory model *)

(** [type Server struct { Name, Environment string; Tags Tags }], where
    [type Tags []string].  A tag list is never written after decoding, so
    it is kept as an immutable list. *)
Record Server := mkServer {
  Name : string;
  Environment : string;
  Tags : list string
}.

(** The zero value of [Server], which fills freshly allocated arrays. *)
Definition zeroServer : Server := mkServer "" "" [].

(** ** Go strings: the three library functions the selection uses *)

(** [strings.HasPrefix(s, prefix)]. *)
Definition HasPrefix (s prefix : string) : bool := String.prefix prefix s.

(** [strings.TrimPrefix(s, prefix)]: [s] without the leading [prefix],
    or [s] itself when it does not start with it. *)
Definition TrimPrefix (s prefix : string) : string :=
  if HasPrefix s prefix
  then String.substring (String.length prefix)
                        (String.length s - String.length prefix) s
  else s.

(** [func contains(tags []string, expectedTag string) bool]. *)
Fixpoint contains (tags : list string) (expectedTag : string) : bool :=
  match tags with
  | [] => false
  | tag :: tags' =>
      if String.eqb tag expectedTag then true else contains tags' expectedTag
  end.

(** ** Slices over a store of backing arrays *)

(** The store: every backing array of [Server] cells, by address. *)
Abbreviation heap := (list (list Server)).

(** A slice header.  Every slice of this program starts at the first
    cell of its array (the only slice expression in the source is
    [servers[:0]]), so the header is the array's address with a length
    and a capacity. *)
Record slice := Slice { ptr : nat; len : nat; cap : nat }.

(** [type Servers []Server]. *)
Definition Servers := slice.

(** Computations over the store; [None] is a run-time panic. *)
Definition M (A : Type) : Type := heap → option (A * heap).

Definition ret {A} (a : A) : M A := λ h, Some (a, h).

Definition bind {A B} (m : M A) (k : A → M B) : M B :=
  λ h, match m h with
       | Some (a, h') => k a h'
       | None => None
       end.

Notation "x ←← m ;; k" := (bind m (λ x, k))
  (at level 100, m at next level, right associativity,
   format "x  ←←  m ;;  '/' k").

(** [s[:0]]: same array, same capacity, no element. *)
Definition reslice0 (s : slice) : slice := Slice (ptr s) 0 (cap s).

(** [s[i]], which panics out of range. *)
Definition index (s : slice) (i : nat) : M Server :=
  λ h, if decide (i < len s)
       then a ← h !! ptr s; x ← a !! i; Some (x, h)
       else None.

Section Select.

(** The capacity Go's runtime picks when [append] must reallocate is not
    fixed by the language; it is a parameter here, and at least the
    length needed is always taken. *)
Variable growslice : nat → nat.

(** [append(s, x)].  With room left the next cell of the backing array
    is overwritten and the array is shared with the argument; without
    room the elements move to a fresh array. *)
Definition append (s : slice) (x : Server) : M slice :=
  λ h, a ← h !! ptr s;
       if decide (len s < cap s)
       then Some (Slice (ptr s) (S (len s)) (cap s),
                  <[ptr s := <[len s := x]> a]> h)
       else let c := S (len s) `max` growslice (cap s) in
            Some (Slice (length h) (S (len s)) c,
                  h ++ [take (len s) a ++ x :: replicate (c - S (len s)) zeroServer]).

(** [for _, server := range servers { body }] with the loop's one live
    variable [filtered] threaded through.  The header of [servers] is
    read once; each element is read from the array when its iteration
    starts.  [n] iterations are left, the next one at index [i]. *)
Fixpoint range_from (servers : slice) (body : Server → slice → M slice)
    (n i : nat) (filtered : slice) : M slice :=
  match n with
  | 0 => ret filtered
  | S n' =>
      server ←← index servers i;;
      filtered' ←← body server filtered;;
      range_from servers body n' (S i) filtered'
  end.

Definition range (servers : slice) (body : Server → slice → M slice)
    (filtered : slice) : M slice :=
  range_from servers body (len servers) 0 filtered.

(** [func filterByEnvironment(servers Servers, environment string) Servers]. *)
Definition filterByEnvironment (servers : Servers) (environment : string)
    : M Servers :=
  let filtered := reslice0 servers in
  range servers (λ server filtered,
    if String.eqb (Environment server) environment
    then append filtered server
    else ret filtered) filtered.

(** [func filterByTag(servers Servers, tag string) Servers]. *)
Definition filterByTag (servers : Servers) (tag : string) : M Servers :=
  let filtered := reslice0 servers in
  range servers (λ server filtered,
    if HasPrefix tag "!"
    then (if negb (contains (Tags server) (TrimPrefix tag "!"))
          then append filtered server
          else ret filtered)
    else (if contains (Tags server) tag
          then append filtered server
          else ret filtered)) filtered.

(** The inner [for _, tag := range tags] of [filterServers]. *)
Fixpoint range_tags (tags : list string) (servers : Servers) : M Servers :=
  match tags with
  | [] => ret servers
  | tag :: tags' =>
      servers' ←← filterByTag servers tag;;
      range_tags tags' servers'
  end.

(** [func filterServers(servers Servers, environment string, tags []string) Servers].
    A nil and an empty [tags] are both the empty list: the guard
    [tags != nil && len(tags) != 0] is [len(tags) != 0] on either. *)
Definition filterServers (servers : Servers) (environment : string)
    (tags : list string) : M Servers :=
  servers1 ←← (if negb (String.eqb environment "")
               then filterByEnvironment servers environment
               else ret servers);;
  if negb (Nat.eqb (length tags) 0)
  then range_tags tags servers1
  else ret servers1.

(** Both filter loops have a body of this shape. *)
Definition keep_body (keep : Server → bool) (server : Server)
    (filtered : slice) : M slice :=
  if keep server then append filtered server else ret filtered.

End Select.

(** What a slice denotes in a store: its first [len] cells. *)
Definition contents (h : heap) (s : slice) : option (list Server) :=
  a ← h !! ptr s;
  if decide (len s ≤ length a) then Some (take (len s) a) else None.

(** A slice is well formed in a store when its array is allocated and
    holds at least [cap] cells, of which [len] are in use. *)
Definition wf_slice (h : heap) (s : slice) : Prop :=
  ∃ a, h !! ptr s = Some a ∧ len s ≤ cap s ∧ cap s ≤ length a.

(** The predicates of the two filter stages, on one server. *)
Definition keepEnvironment (environment : string) (server : Server) : bool :=
  String.eqb (Environment server) environment.

Definition keepTag (tag : string) (server : Server) : bool :=
  if HasPrefix tag "!"
  then negb (contains (Tags server) (TrimPrefix tag "!"))
  else contains (Tags server) tag.

(** The list of servers the selection keeps, stage after stage. *)
Definition selected (l : list Server) (environment : string)
    (tags : list string) : list Server :=
  foldl (λ l tag, filter (λ server, keepTag tag server = true) l)
        (if negb (String.eqb environment "")
         then filter (λ server, keepEnvironment environment server = true) l
         else l)
        tags.

(** [select(inventory, environment, tagExpressions)] as its caller sees
    it: the servers held by the slice that [filterServers] returns, in
    the store it leaves. *)
Definition select (growslice : nat → nat) (h : heap) (servers : Servers)
    (environment : string) (tags : list string) : option (list Server) :=
  match filterServers growslice servers environment tags h with
  | Some (servers', h') => contents h' servers'
  | None => None
  end.

(** ** The process: standard streams, helper launches, exit status *)

Definition nl : string := String "010"%char "".

(** [strings.Split(s, sep)] for a separator of one byte: the pieces of
    [s] between occurrences of [sep], always at least one piece. *)
Fixpoint Split (s : string) (sep : ascii) : list string :=
  match s with
  | EmptyString => [""]
  | String c s' =>
      if Ascii.eqb c sep then "" :: Split s' sep
      else match Split s' sep with
           | piece :: pieces => String c piece :: pieces
           | [] => [String c ""]
           end
  end.

(** [strings.Trim(s, "\n")]: leading and trailing newlines removed. *)
Fixpoint TrimLeft_nl (s : string) : string :=
  match s with
  | String c s' => if Ascii.eqb c "010" then TrimLeft_nl s' else s
  | EmptyString => ""
  end.

Definition Trim_nl (s : string) : string :=
  String.rev (TrimLeft_nl (String.rev (TrimLeft_nl s))).

(** Whether the last byte of [s] is a newline. *)
Fixpoint ends_with_nl (s : string) : bool :=
  match s with
  | EmptyString => false
  | String c EmptyString => Ascii.eqb c "010"
  | String _ s' => ends_with_nl s'
  end.

(** [strconv.Itoa]. *)
Definition Itoa (i : Z) : string := pretty i.

(** [syscall.WaitStatus] (a [uint32] on Linux) and its two methods. *)
Definition Exited (w : Z) : bool := Z.eqb (Z.land w 127) 0.

Definition ExitStatus (w : Z) : Z :=
  if negb (Exited w) then (-1)%Z else Z.land (Z.shiftr w 8) 255.

(** The dynamic type of [exiterr.Sys()]. *)
Inductive SysValue :=
  | SysWaitStatus (status : Z)
  | SysOther.

(** The dynamic type of the error of [cmd.Wait]. *)
Inductive WaitError :=
  | ExitError (sys : SysValue)
  | OtherError.

(** One launch of the helper, as the operating system decides it:
    [cmd.Start] fails with an error text, or the helper runs, fills the
    two buffers and [cmd.Wait] returns [nil] or an error. *)
Inductive Launch :=
  | StartFailed (startErr : string)
  | Started (er : option WaitError) (stdoutBuf stderrBuf : string).

(** The observable state of the process. *)
Record world := World {
  stdout : string;
  stderr : string;
  launched : list (list string)   (* argv of every helper start attempted *)
}.

(** A computation of the process returns or ends it with a status. *)
Inductive outcome (A : Type) :=
  | Done (a : A)
  | Exit (status : Z).
Arguments Done {A} a.
Arguments Exit {A} status.

Definition P (A : Type) : Type := world → outcome A * world.

Definition pret {A} (a : A) : P A := λ w, (Done a, w).

Definition pbind {A B} (m : P A) (k : A → P B) : P B :=
  λ w, match m w with
       | (Done a, w') => k a w'
       | (Exit status, w') => (Exit status, w')
       end.

Notation "x ⇐ m ;; k" := (pbind m (λ x, k))
  (at level 100, m at next level, right associativity,
   format "x  ⇐  m ;;  '/' k").
Notation "m ;;; k" := (pbind m (λ _, k))
  (at level 100, right associativity).

(** Writing to standard output; [fmt.Println] of one string. *)
Definition Print (s : string) : P unit :=
  λ w, (Done tt, World (stdout w +:+ s) (stderr w) (launched w)).

Definition Println (s : string) : P unit := Print (s +:+ nl).

(** [os.Exit]. *)
Definition os_Exit {A} (status : Z) : P A := λ w, (Exit status, w).

(** The status of the process when [main] runs [p] and returns. *)
Definition exit_status (r : outcome unit * world) : Z :=
  match r.1 with
  | Done _ => 0%Z
  | Exit status => status
  end.

(** ** Presentation of a selection *)

(** The presentation functions only read their slice; they are given the
    servers it holds, in order. *)

(** The loop of [listNamesOutput]: [count] is [len(servers)], [index]
    the position of the head of [rest]. *)
Fixpoint listNames_loop (count index : Z) (rest : list Server)
    (buffer : string) : string :=
  match rest with
  | [] => buffer
  | server :: rest' =>
      let buffer := buffer +:+ Name server in
      let buffer := if (index <? count - 1)%Z then buffer +:+ "," else buffer in
      listNames_loop count (index + 1)%Z rest' buffer
  end.

(** [func listNamesOutput(servers Servers)]. *)
Definition listNamesOutput (servers : list Server) : P unit :=
  let buffer := listNames_loop (Z.of_nat (length servers)) 0%Z servers "" in
  Println buffer.

(** [%s] of a [[]string]: the elements between brackets, one space apart. *)
Definition fmt_strings (l : list string) : string :=
  "[" +:+ String.concat " " l +:+ "]".

(** [func columnarOutput(servers Servers)]. *)
Fixpoint columnarOutput (servers : list Server) : P unit :=
  match servers with
  | [] => pret tt
  | server :: rest =>
      Print (Environment server +:+ " " +:+ Name server +:+ " "
             +:+ fmt_strings (Tags server) +:+ nl) ;;;
      columnarOutput rest
  end.

(** The argument vector of
    [exec.Command("pmrun", "-h", server.Name, user, command)]. *)
Definition Command_args (server : Server) (user command : string)
    : list string :=
  ["pmrun"; "-h"; Name server; user; command].

Section Process.

(** What lies outside the program: the JSON encoder and decoder, the
    file system, the terminal colouring library, the header the
    standard logger puts before a message, the rune count [fmt] pads
    with, and the operating system's answer to the [n]-th launch of a
    helper with a given argument vector. *)
Variable MarshalIndent : list Server → string + string.
Variable ReadFile : string → string + string.
Variable Unmarshal : string → list Server * nat.
Variable rgbterm_String : string → Z → Z → Z → Z → Z → Z → string.
Variable log_header : string.
Variable RuneCountInString : string → nat.
Variable pmrun : nat → list string → Launch.
Variable growslice : nat → nat.

(** [func printJSONOutput(servers Servers)]: [inl] is the encoding,
    [inr] the text of the encoder's error. *)
Definition printJSONOutput (servers : list Server) : P unit :=
  match MarshalIndent servers with
  | inr err => Println err
  | inl serversJSON => Println serversJSON
  end.

(** [func formatList(servers Servers, format string)]. *)
Definition formatList (servers : list Server) (format : string) : P unit :=
  if String.eqb format "names" then listNamesOutput servers
  else if String.eqb format "json" then printJSONOutput servers
  else columnarOutput servers.

(** [log.Fatalf]: the logger's header and the message on standard
    error, a newline added unless the message ends with one, then
    [os.Exit(1)]. *)
Definition log_Fatalf {A} (msg : string) : P A :=
  λ w, let line := if ends_with_nl msg then msg else msg +:+ nl in
       (Exit 1%Z,
        World (stdout w) (stderr w +:+ (log_header +:+ line)) (launched w)).

(** [func red()], [func green()], [func white()]. *)
Definition red : Z * Z * Z := (255, 0, 0)%Z.
Definition green : Z * Z * Z := (0, 255, 0)%Z.
Definition white : Z * Z * Z := (255, 255, 255)%Z.

(** [func colorizeExitCode(exitCode int) string]. *)
Definition colorizeExitCode (exitCode : Z) : string :=
  let '(fr, fg, fb) := white in
  let '(br, bg, bb) := green in
  let '(br, bg, bb) := if negb (Z.eqb exitCode 0) then red else (br, bg, bb) in
  rgbterm_String (Itoa exitCode) fr fg fb br bg bb.

(** [func execCommand(server Server, user string, command string)
    (exitCode int, stdout string, stderr string)]. *)
Definition execCommand (server : Server) (user command : string)
    : P (Z * string * string) :=
  λ w,
    let exit := 0%Z in
    let argv := Command_args server user command in
    let w' := World (stdout w) (stderr w) (launched w ++ [argv]) in
    match pmrun (length (launched w)) argv with
    | StartFailed startErr => log_Fatalf ("cmd.Start: " +:+ startErr) w'
    | Started er stdoutBuf stderrBuf =>
        let exit :=
          match er with
          | Some (ExitError (SysWaitStatus status)) => ExitStatus status
          | Some (ExitError SysOther) => exit
          | Some OtherError => exit
          | None => exit
          end in
        (Done (exit, stdoutBuf, stderrBuf), w')
    end.

(** The exit code [execCommand] takes from what [cmd.Wait] returned. *)
Definition exit_code (er : option WaitError) : Z :=
  match er with
  | Some (ExitError (SysWaitStatus status)) => ExitStatus status
  | _ => 0%Z
  end.

(** [%Ns] of [fmt]: spaces on the left up to [width] runes. *)
Definition pad (width : nat) (s : string) : string :=
  string_of_list_ascii (replicate (width - RuneCountInString s) " "%char) +:+ s.

(** The body of the [exec] action's loop over the selected servers. *)
Fixpoint exec_range (servers : list Server) (user cmd : string) : P unit :=
  match servers with
  | [] => pret tt
  | server :: rest =>
      r ⇐ execCommand server user cmd ;;
      let '(exitCode, stdout, stderr) := r in
      Print (nl +:+ pad 2 (colorizeExitCode exitCode)
             +:+ "[" +:+ pad 10 (Name server) +:+ "] STDOUT: "
             +:+ pad 10 (Trim_nl stdout) +:+ nl) ;;;
      (if negb (String.eqb stderr "")
       then Print ("STDERR: " +:+ Trim_nl stderr +:+ nl)
       else pret tt) ;;;
      exec_range rest user cmd
  end.

(** What the [exec] action prints for one server. *)
Definition report (server : Server) (exitCode : Z) (stdout stderr : string)
    : string :=
  (nl +:+ pad 2 (colorizeExitCode exitCode)
   +:+ "[" +:+ pad 10 (Name server) +:+ "] STDOUT: "
   +:+ pad 10 (Trim_nl stdout) +:+ nl)
  +:+ (if negb (String.eqb stderr "")
       then "STDERR: " +:+ Trim_nl stderr +:+ nl
       else "").

(** The reports of the servers whose helpers start, in order, up to the
    first helper that does not; [base] is the number of the first launch. *)
Fixpoint reports (base : nat) (servers : list Server) (user cmd : string)
    : string :=
  match servers with
  | [] => ""
  | server :: rest =>
      match pmrun base (Command_args server user cmd) with
      | Started er out err =>
          report server (exit_code er) out err
          +:+ reports (S base) rest user cmd
      | StartFailed _ => ""
      end
  end.

(** [func getServers(configFile string) Servers]: the decoded inventory
    in a fresh array ([inl] is the file's content, [inr] the error's
    text; the decoder yields the servers and the spare capacity of the
    slice it built). *)
Definition getServers (configFile : string) : P (heap * Servers) :=
  match ReadFile configFile with
  | inr err => Println err ;;; os_Exit 1%Z
  | inl raw =>
      let '(servers, spare) := Unmarshal raw in
      pret ([servers ++ replicate spare zeroServer],
            Slice 0 (length servers) (length servers + spare))
  end.

(** The selection step shared by both actions:
    [servers = filterServers(servers, environment, strings.Split(tags, ","))],
    then the slice read back.  A run-time panic ends the process with
    status 2. *)
Definition selectServers (hs : heap * Servers) (environment tags : string)
    : P (list Server) :=
  match filterServers growslice hs.2 environment (Split tags ",") hs.1 with
  | Some (servers, h) =>
      match contents h servers with
      | Some l => pret l
      | None => os_Exit 2%Z
      end
  | None => os_Exit 2%Z
  end.

(** The [Action] of the [list] command. *)
Definition listAction (configFile environment tags format : string) : P unit :=
  hs ⇐ getServers configFile ;;
  servers ⇐ selectServers hs environment tags ;;
  formatList servers format ;;;
  Println "".

(** The [Action] of the [exec] command; [cmd] is [c.Args().Get(0)]. *)
Definition execAction (configFile environment tags user cmd : string) : P unit :=
  hs ⇐ getServers configFile ;;
  servers ⇐ selectServers hs environment tags ;;
  exec_range servers user cmd ;;;
  Println "".

(** The process starts with empty streams and no helper launched. *)
Definition world0 : world := World "" "" [].

End Process.

(** ** The scenario of the specification *)

Definition serverA : Server := mkServer "A" "prod" ["db"].
Definition serverB : Server := mkServer "B" "staging" ["web"].
Definition serverC : Server := mkServer "C" "prod" ["web"; "db"].

Definition scenario : list Server := [serverA; serverB; serverC].

(** The scenario's inventory as [getServers] leaves it: one array, one
    slice over the whole of it. *)
Definition scenario_heap : heap := [scenario].
Definition scenario_slice : slice := Slice 0 3 3.

(** A growth policy for [append], for the examples. *)
Definition doubling (c : nat) : nat := 2 * c.

(** An outside world for the examples: the inventory file holds the
    scenario, colouring brackets the text with the two colours' codes,
    every byte is a rune, and the helper succeeds on A, is refused on B
    (exit status 2, on Linux the wait status 512) and cannot be started
    on any other host. *)
Definition demo_MarshalIndent (_ : list Server) : string + string := inl "[]".
Definition demo_ReadFile (_ : string) : string + string := inl "inventory".
Definition demo_Unmarshal (_ : string) : list Server * nat := (scenario, 1).
Definition demo_rgbterm (s : string) (fr fg fb br bg bb : Z) : string :=
  "<" +:+ Itoa fr +:+ Itoa br +:+ Itoa bg +:+ ">" +:+ s +:+ "</>".
Definition demo_pmrun (n : nat) (argv : list string) : Launch :=
  match argv !! 2 with
  | Some "A" => Started None ("ok" +:+ nl) ""
  | Some "B" => Started (Some (ExitError (SysWaitStatus 512))) "" "denied"
  | _ => StartFailed "exec: pmrun: executable file not found in $PATH"
  end.

(** A helper that always starts and whose wait then fails without an
    exit status. *)
Definition demo_pmrun_wait (n : nat) (argv : list string) : Launch :=
  Started (Some OtherError) "partial" "".

(** Every launch of the helper for these servers starts, the first of
    them being the launch number [base] of the process. *)
Definition starts (pmrun : nat → list string → Launch) (base : nat)
    (servers : list Server) (user cmd : string) : Prop :=
  ∀ i server, servers !! i = Some server →
    ∃ er out err,
      pmrun (base + i) (Command_args server user cmd) = Started er out err.

(** An inventory file that cannot be read. *)
Definition demo_ReadFile_missing (_ : string) : string + string :=
  inr "open servers.json: no such file or directory".

(** The line of one server in the columnar format. *)
Definition columnar_line (server : Server) : string :=
  Environment server +:+ " " +:+ Name server +:+ " "
  +:+ fmt_strings (Tags server) +:+ nl.

(** The line [log.Fatalf] writes for a message. *)
Definition fatal_line (msg : string) : string :=
  if ends_with_nl msg then msg else msg +:+ nl.

(** The effect of a selection that turns the slice [s] of store [h],
    whose array is [a], into the slice [s'] of store [h'] holding [l']:
    the result lives in the array of [s], whose leading cells it
    overwrites; the cells beyond the length of [s], the length of the
    array and every other array are as before. *)
Record in_place (h : heap) (s : slice) (a l' : list Server)
    (h' : heap) (s' : slice) (a' : list Server) : Prop := InPlaceEffect {
  ip_slice : s' = Slice (ptr s) (length l') (cap s);
  ip_heap : h' = <[ptr s := a']> h;
  ip_sub : l' `sublist_of` take (len s) a;
  ip_result : take (length l') a' = l';
  ip_rest : drop (len s) a' = drop (len s) a;
  ip_length : length a' = length a;
  ip_same : l' = take (len s) a → a' = a
}.

(** Whether one server passes every stage of a selection. *)
Definition passes (environment : string) (tags : list string)
    (server : Server) : bool :=
  (String.eqb environment "" || keepEnvironment environment server)
  && forallb (λ tag, keepTag tag server) tags.

(** ** The filter loops, in place *)

Section InPlace.

Variable growslice : nat → nat.

Lemma filterByEnvironment_keep servers environment :
  filterByEnvironment growslice servers environment
  = range servers (keep_body growslice (keepEnvironment environment)) (reslice0 servers).
Proof. reflexivity. Qed.

Lemma filterByTag_keep servers tag :
  filterByTag growslice servers tag
  = range servers (keep_body growslice (keepTag tag)) (reslice0 servers).
Proof.
  unfold filterByTag, keep_body, keepTag.
  destruct (HasPrefix tag "!"); reflexivity.
Qed.

(** How one step of each operation runs. *)
Lemma bind_Some {A B} (m : M A) (k : A → M B) h a h' :
  m h = Some (a, h') → bind m k h = k a h'.
Proof. unfold bind. by intros ->. Qed.

Lemma index_Some (s : slice) (i : nat) (h : heap) a x :
  h !! ptr s = Some a → a !! i = Some x → i < len s →
  index s i h = Some (x, h).
Proof.
  intros Hp Hx Hi. unfold index. rewrite decide_True by done.
  rewrite Hp. cbn. by rewrite Hx.
Qed.

Lemma append_room (s : slice) (x : Server) (h : heap) a :
  h !! ptr s = Some a → len s < cap s →
  append growslice s x h
  = Some (Slice (ptr s) (S (len s)) (cap s), <[ptr s := <[len s := x]> a]> h).
Proof.
  intros Hp Hroom. unfold append. rewrite Hp. cbn.
  by rewrite decide_True.
Qed.

Lemma range_from_S servers body n i filtered :
  range_from servers body (S n) i filtered
  = (server ←← index servers i;;
     filtered' ←← body server filtered;;
     range_from servers body n (S i) filtered').
Proof. reflexivity. Qed.

(** The loop invariant.  Before the iteration at index [i] the result
    built so far occupies the first [k ≤ i] cells of the array, and the
    cells from [i] on are still those of the argument.  The loop never
    leaves the array: [append] always finds room. *)
Lemma range_from_keep (keep : Server → bool) (p n0 c : nat) :
  ∀ (n i k : nat) (a : list Server) (h : heap),
    h !! p = Some a → k ≤ i → i + n = n0 → n0 ≤ c → c ≤ length a →
    ∃ a', let kept := filter (λ x, keep x = true) (take n (drop i a)) in
      range_from (Slice p n0 c) (keep_body growslice keep) n i (Slice p k c) h
        = Some (Slice p (k + length kept) c, <[p := a']> h)
      ∧ take (k + length kept) a' = take k a ++ kept
      ∧ drop n0 a' = drop n0 a
      ∧ length a' = length a
      ∧ (k = i → kept = take n (drop i a) → a' = a).
Proof.
  induction n as [|n IH]; intros i k a h Hp Hk Hn Hc Ha.
  - exists a. cbn zeta. rewrite take_0, filter_nil. cbn [length range_from].
    rewrite Nat.add_0_r, app_nil_r, list_insert_id by done.
    unfold ret. auto.
  - assert (Hi : i < length a) by lia.
    destruct (lookup_lt_is_Some_2 a i Hi) as [x Hx].
    rewrite (drop_S a x i Hx), firstn_cons, filter_cons.
    rewrite range_from_S.
    rewrite (bind_Some _ _ h x h)
      by (apply (index_Some _ _ _ a); [done | done | cbn; lia]).
    unfold keep_body at 1.
    destruct (keep x) eqn:Hkeep.
    + rewrite decide_True by done.
      set (a1 := <[k := x]> a). set (h1 := <[p := a1]> h).
      rewrite (bind_Some _ _ h (Slice p (S k) c) h1)
        by (apply (append_room (Slice p k c) x h a); [done | cbn; lia]).
      assert (Hp1 : h1 !! p = Some a1).
      { apply list_lookup_insert_eq. by eapply lookup_lt_Some. }
      assert (Hd : drop (S i) a1 = drop (S i) a).
      { unfold a1. apply drop_insert_lt. lia. }
      destruct (IH (S i) (S k) a1 h1 Hp1)
        as (a' & Hrun & Htake & Hdrop & Hlen & Hid);
        [lia | lia | done | by (unfold a1; rewrite length_insert) |].
      cbn zeta in *. rewrite Hd in *.
      exists a'. cbn [length]. rewrite Nat.add_succ_r.
      split; [|split; [|split; [|split]]].
      * rewrite Hrun. unfold h1. by rewrite list_insert_insert_eq.
      * cbn in Htake. rewrite Htake.
        unfold a1. rewrite (take_S_r _ k x).
        -- rewrite take_insert_ge by lia. by rewrite <- app_assoc.
        -- apply list_lookup_insert_eq. lia.
      * rewrite Hdrop. unfold a1. apply drop_insert_lt. lia.
      * rewrite Hlen. unfold a1. by rewrite length_insert.
      * intros -> Heq. injection Heq as Heq.
        assert (a1 = a) as Ha1 by (unfold a1; by apply list_insert_id).
        rewrite Ha1 in Hid. by apply Hid.
    + rewrite decide_False by done.
      rewrite (bind_Some _ _ h (Slice p k c) h) by done.
      destruct (IH (S i) k a h Hp)
        as (a' & Hrun & Htake & Hdrop & Hlen & Hid);
        [lia | lia | done | done |].
      cbn zeta in *. exists a'.
      split; [done | split; [done | split; [done | split; [done |]]]].
      intros -> Heq. exfalso.
      pose proof (length_filter (λ x, keep x = true) (take n (drop (S i) a))) as Hle.
      rewrite Heq in Hle. cbn in Hle. lia.
Qed.

Lemma sublist_same_length {A} (l1 l2 : list A) :
  l1 `sublist_of` l2 → length l2 ≤ length l1 → l1 = l2.
Proof.
  induction 1 as [|x l1 l2 Hsub IH|x l1 l2 Hsub IH]; cbn; intros Hlen.
  - done.
  - f_equal. apply IH. lia.
  - apply sublist_length in Hsub. lia.
Qed.

(** One filter stage, on a well-formed slice. *)
Lemma stage_in_place (keep : Server → bool) (h : heap) (s : slice) a :
  h !! ptr s = Some a → len s ≤ cap s → cap s ≤ length a →
  ∃ h' s' a',
    range s (keep_body growslice keep) (reslice0 s) h = Some (s', h')
    ∧ in_place h s a (filter (λ x, keep x = true) (take (len s) a)) h' s' a'.
Proof.
  intros Hp Hlen Hcap. destruct s as [p n0 c]. cbn [ptr len cap] in *.
  destruct (range_from_keep keep p n0 c n0 0 0 a h Hp)
    as (a' & Hrun & Htake & Hdrop & Hlength & Hid); [lia..|].
  cbn zeta in *. rewrite drop_0 in *. cbn [Nat.add take app] in *.
  exists (<[p := a']> h), (Slice p (length (filter (λ x, keep x = true) (take n0 a))) c), a'.
  split; [exact Hrun|].
  constructor; cbn [ptr len cap]; auto.
  apply sublist_filter.
Qed.

(** Two selections in a row are one, in place. *)
Lemma in_place_trans h s a l1 h1 s1 a1 l2 h2 s2 a2 :
  in_place h s a l1 h1 s1 a1 →
  in_place h1 s1 a1 l2 h2 s2 a2 →
  in_place h s a l2 h2 s2 a2.
Proof.
  intros [Hs1 Hh1 Hsub1 Hres1 Hrest1 Hlen1 Hsame1]
         [Hs2 Hh2 Hsub2 Hres2 Hrest2 Hlen2 Hsame2].
  subst s1 h1. cbn [ptr len cap] in *.
  assert (Hl1 : length l1 ≤ len s).
  { apply sublist_length in Hsub1. rewrite length_take in Hsub1. lia. }
  rewrite Hres1 in Hsub2, Hsame2.
  constructor.
  - done.
  - by rewrite Hh2, list_insert_insert_eq.
  - by etrans.
  - done.
  - rewrite <- Hrest1.
    replace (len s) with (length l1 + (len s - length l1)) by lia.
    rewrite <- !drop_drop. by rewrite Hrest2.
  - congruence.
  - intros Heq. subst l2.
    assert (l1 = take (len s) a) as Hl1eq.
    { apply sublist_same_length; [done|]. by apply sublist_length. }
    rewrite <- (Hsame1 Hl1eq). apply Hsame2. by rewrite <- Hl1eq.
Qed.

(** A selection that applies no stage. *)
Lemma in_place_refl (h : heap) (s : slice) a :
  h !! ptr s = Some a → len s ≤ length a →
  in_place h s a (take (len s) a) h s a.
Proof.
  intros Hp Hlen. constructor; try done.
  - rewrite length_take_le by done. by destruct s.
  - by rewrite list_insert_id.
  - rewrite length_take_le by done. done.
Qed.

(** The result of a stage is a well-formed slice again. *)
Lemma in_place_wf h s a l' h' s' a' :
  h !! ptr s = Some a → len s ≤ cap s → cap s ≤ length a →
  in_place h s a l' h' s' a' →
  h' !! ptr s' = Some a' ∧ len s' ≤ cap s' ∧ cap s' ≤ length a'
  ∧ take (len s') a' = l'.
Proof.
  intros Hp Hlen Hcap [-> -> Hsub Hres _ Hlength _]. cbn [ptr len cap].
  apply sublist_length in Hsub. rewrite length_take in Hsub.
  split; [|split; [lia|split; [lia|done]]].
  apply list_lookup_insert_eq. by eapply lookup_lt_Some.
Qed.

Lemma range_tags_in_place (tags : list string) :
  ∀ (h : heap) (s : slice) a,
    h !! ptr s = Some a → len s ≤ cap s → cap s ≤ length a →
    ∃ h' s' a',
      range_tags growslice tags s h = Some (s', h')
      ∧ in_place h s a
          (foldl (λ l tag, filter (λ server, keepTag tag server = true) l)
                 (take (len s) a) tags) h' s' a'.
Proof.
  induction tags as [|tag tags IH]; intros h s a Hp Hlen Hcap.
  - exists h, s, a. split; [done|]. apply in_place_refl; [done | lia].
  - cbn [range_tags foldl]. rewrite filterByTag_keep.
    destruct (stage_in_place (keepTag tag) h s a Hp Hlen Hcap)
      as (h1 & s1 & a1 & Hrun1 & Hip1).
    rewrite (bind_Some _ _ _ _ _ Hrun1).
    destruct (in_place_wf _ _ _ _ _ _ _ Hp Hlen Hcap Hip1)
      as (Hp1 & Hlen1 & Hcap1 & Htake1).
    destruct (IH h1 s1 a1 Hp1 Hlen1 Hcap1) as (h2 & s2 & a2 & Hrun2 & Hip2).
    rewrite Htake1 in Hip2.
    exists h2, s2, a2. split; [done|]. by eapply in_place_trans.
Qed.

(** The selection as a whole: it returns, and it works in place. *)
Lemma filterServers_in_place (h : heap) (s : slice) a environment tags :
  h !! ptr s = Some a → len s ≤ cap s → cap s ≤ length a →
  ∃ h' s' a',
    filterServers growslice s environment tags h = Some (s', h')
    ∧ in_place h s a (selected (take (len s) a) environment tags) h' s' a'.
Proof.
  intros Hp Hlen Hcap. unfold filterServers, selected.
  assert (∃ h1 s1 a1,
    (if negb (String.eqb environment "")
     then filterByEnvironment growslice s environment else ret s) h
      = Some (s1, h1)
    ∧ in_place h s a
        (if negb (String.eqb environment "")
         then filter (λ server, keepEnvironment environment server = true)
                     (take (len s) a)
         else take (len s) a) h1 s1 a1) as (h1 & s1 & a1 & Hrun1 & Hip1).
  { destruct (negb (String.eqb environment "")).
    - rewrite filterByEnvironment_keep. by apply stage_in_place.
    - exists h, s, a. split; [done|]. apply in_place_refl; [done | lia]. }
  rewrite (bind_Some _ _ _ _ _ Hrun1).
  destruct (in_place_wf _ _ _ _ _ _ _ Hp Hlen Hcap Hip1)
    as (Hp1 & Hlen1 & Hcap1 & Htake1).
  destruct tags as [|tag tags].
  - exists h1, s1, a1. by split.
  - change (negb (length (tag :: tags) =? 0)) with true. cbv iota.
    destruct (range_tags_in_place (tag :: tags) h1 s1 a1 Hp1 Hlen1 Hcap1)
      as (h2 & s2 & a2 & Hrun2 & Hip2).
    rewrite Htake1 in Hip2.
    exists h2, s2, a2. split; [done|]. by eapply in_place_trans.
Qed.

End InPlace.

(** ** The selection as a function of the servers it is given *)

Lemma contains_elem_of (tags : list string) (t : string) :
  contains tags t = true ↔ t ∈ tags.
Proof.
  induction tags as [|tag tags IH]; cbn.
  - split; [done | by intros ?%elem_of_nil].
  - rewrite elem_of_cons. destruct (String.eqb_spec tag t) as [->|Hne].
    + split; auto.
    + rewrite IH. split; [auto | intros [? | ?]; congruence].
Qed.

Lemma contains_not_elem_of (tags : list string) (t : string) :
  negb (contains tags t) = true ↔ t ∉ tags.
Proof.
  rewrite <- contains_elem_of.
  destruct (contains tags t); cbn; split; congruence.
Qed.

Lemma substring_all (t : string) : String.substring 0 (String.length t) t = t.
Proof. induction t as [|c t IH]; cbn; [done | by rewrite IH]. Qed.

Lemma HasPrefix_bang (t : string) : HasPrefix ("!" +:+ t) "!" = true.
Proof. by destruct t. Qed.

Lemma TrimPrefix_bang (t : string) : TrimPrefix ("!" +:+ t) "!" = t.
Proof.
  unfold TrimPrefix. rewrite HasPrefix_bang.
  change ("!" +:+ t) with (String "!" t). cbn.
  rewrite Nat.sub_0_r. apply substring_all.
Qed.

(** A positive expression keeps the servers that carry the tag, the
    negation of a tag those that do not. *)
Lemma keepTag_positive (t : string) (server : Server) :
  HasPrefix t "!" = false →
  keepTag t server = true ↔ t ∈ Tags server.
Proof. intros Ht. unfold keepTag. rewrite Ht. apply contains_elem_of. Qed.

Lemma keepTag_negated (t : string) (server : Server) :
  keepTag ("!" +:+ t) server = true ↔ t ∉ Tags server.
Proof.
  unfold keepTag. rewrite HasPrefix_bang, TrimPrefix_bang.
  apply contains_not_elem_of.
Qed.

Lemma foldl_filter_forallb (tags : list string) :
  ∀ l : list Server,
    foldl (λ l tag, filter (λ server, keepTag tag server = true) l) l tags
    = filter (λ server, forallb (λ tag, keepTag tag server) tags = true) l.
Proof.
  induction tags as [|tag tags IH]; intros l; cbn [foldl forallb].
  - symmetry. induction l as [|x l IHl]; [done|].
    rewrite filter_cons_True by done. by f_equal.
  - rewrite IH, list_filter_filter. apply list_filter_iff.
    intros x. rewrite andb_true_iff. tauto.
Qed.

(** The stages together keep the servers that pass every one of them. *)
Lemma selected_passes (l : list Server) environment tags :
  selected l environment tags
  = filter (λ server, passes environment tags server = true) l.
Proof.
  unfold selected, passes. rewrite foldl_filter_forallb.
  destruct (String.eqb environment ""); cbn [negb orb].
  - done.
  - rewrite list_filter_filter. apply list_filter_iff.
    intros x. rewrite andb_true_iff. tauto.
Qed.

Lemma selected_sublist (l : list Server) environment tags :
  selected l environment tags `sublist_of` l.
Proof. rewrite selected_passes. apply sublist_filter. Qed.

Lemma selected_idempotent (l : list Server) environment tags :
  selected (selected l environment tags) environment tags
  = selected l environment tags.
Proof.
  rewrite !selected_passes. rewrite list_filter_filter.
  apply list_filter_iff. tauto.
Qed.

(** ** The selection on a store *)

Section Selection.

Variable growslice : nat → nat.

Lemma contents_Some (h : heap) (s : slice) (I : list Server) :
  wf_slice h s → contents h s = Some I →
  ∃ a, h !! ptr s = Some a ∧ len s ≤ cap s ∧ cap s ≤ length a
       ∧ I = take (len s) a.
Proof.
  intros (a & Hp & Hlen & Hcap) Hc. exists a.
  unfold contents in Hc. rewrite Hp in Hc. cbn in Hc.
  rewrite decide_True in Hc by lia. by injection Hc as <-.
Qed.

Lemma contents_in_place h s a l' h' s' a' :
  h !! ptr s = Some a → len s ≤ cap s → cap s ≤ length a →
  in_place h s a l' h' s' a' →
  wf_slice h' s' ∧ contents h' s' = Some l'.
Proof.
  intros Hp Hlen Hcap Hip.
  destruct (in_place_wf _ _ _ _ _ _ _ Hp Hlen Hcap Hip)
    as (Hp' & Hlen' & Hcap' & Htake).
  split; [by exists a'|].
  unfold contents. rewrite Hp'. cbn. rewrite decide_True by lia.
  by rewrite Htake.
Qed.

(** What [filterServers] does to a well-formed slice holding [I]. *)
Lemma filterServers_run (h : heap) (s : slice) (I : list Server) environment tags :
  wf_slice h s → contents h s = Some I →
  ∃ h' s' a a',
    filterServers growslice s environment tags h = Some (s', h')
    ∧ h !! ptr s = Some a ∧ I = take (len s) a
    ∧ in_place h s a (selected I environment tags) h' s' a'
    ∧ wf_slice h' s'
    ∧ contents h' s' = Some (selected I environment tags).
Proof.
  intros Hwf Hc.
  destruct (contents_Some h s I Hwf Hc) as (a & Hp & Hlen & Hcap & ->).
  destruct (filterServers_in_place growslice h s a environment tags Hp Hlen Hcap)
    as (h' & s' & a' & Hrun & Hip).
  destruct (contents_in_place _ _ _ _ _ _ _ Hp Hlen Hcap Hip) as [Hwf' Hc'].
  by exists h', s', a, a'.
Qed.

(** The caller of the selection gets the servers that pass every stage. *)
Lemma select_selected (h : heap) (s : slice) (I : list Server) environment tags :
  wf_slice h s → contents h s = Some I →
  select growslice h s environment tags = Some (selected I environment tags).
Proof.
  intros Hwf Hc.
  destruct (filterServers_run h s I environment tags Hwf Hc)
    as (h' & s' & a & a' & Hrun & _ & _ & _ & _ & Hc').
  unfold select. by rewrite Hrun.
Qed.

(** One stage alone, on the servers the slice holds. *)
Lemma stage_contents (keep : Server → bool) (h : heap) (s : slice) (I : list Server) :
  wf_slice h s → contents h s = Some I →
  ∃ h' s',
    range s (keep_body growslice keep) (reslice0 s) h = Some (s', h')
    ∧ contents h' s' = Some (filter (λ x, keep x = true) I).
Proof.
  intros Hwf Hc.
  destruct (contents_Some h s I Hwf Hc) as (a & Hp & Hlen & Hcap & ->).
  destruct (stage_in_place growslice keep h s a Hp Hlen Hcap)
    as (h' & s' & a' & Hrun & Hip).
  destruct (contents_in_place _ _ _ _ _ _ _ Hp Hlen Hcap Hip) as [_ Hc'].
  by exists h', s'.
Qed.

(** When every server passes, nothing is written that was not there. *)
Lemma filterServers_fixed (h : heap) (s : slice) (I : list Server) environment tags :
  wf_slice h s → contents h s = Some I →
  selected I environment tags = I →
  filterServers growslice s environment tags h = Some (s, h).
Proof.
  intros Hwf Hc Heq.
  destruct (filterServers_run h s I environment tags Hwf Hc)
    as (h' & s' & a & a' & Hrun & Hp & HI & Hip & _).
  destruct (contents_Some h s I Hwf Hc) as (a0 & Hp0 & Hlen & Hcap & _).
  assert (a0 = a) as -> by congruence.
  destruct Hip as [Hs' Hh' _ _ _ _ Hsame].
  rewrite Heq, HI in Hsame. rewrite (Hsame eq_refl) in Hh'.
  rewrite Hrun. f_equal. f_equal.
  - rewrite Hs', Heq, HI, length_take_le by lia. by destruct s.
  - by rewrite Hh', list_insert_id.
Qed.

Lemma scenario_wf : wf_slice scenario_heap scenario_slice.
Proof. exists scenario. cbn. repeat split; lia. Defined.

End Selection.

Lemma filter_none {A} (P : A → Prop) `{!∀ x, Decision (P x)} (l : list A) :
  (∀ x, ¬ P x) → filter P l = [].
Proof.
  intros HP. induction l as [|x l IH]; [done|].
  by rewrite filter_cons_False.
Qed.

Lemma selected_environment (I : list Server) (e : string) :
  e ≠ "" →
  selected I e [] = filter (λ server, Environment server = e) I.
Proof.
  intros He. unfold selected.
  destruct (String.eqb_spec e "") as [|_]; [done|]. cbn [negb foldl].
  apply list_filter_iff. intros x. unfold keepEnvironment.
  by destruct (String.eqb_spec (Environment x) e).
Qed.

Lemma selected_one_tag (I : list Server) (tag : string) :
  selected I "" [tag] = filter (λ server, keepTag tag server = true) I.
Proof. reflexivity. Qed.

(** ** The claims about the selection engine *)

Section SelectionClaims.

Variable growslice : nat → nat.

(** C2.  With no tag expression, a non-empty environment keeps exactly
    the servers whose environment field equals it, in their original
    order, and the empty environment keeps every server. *)
Theorem select_environment_only (h : heap) (s : slice) (I : list Server)
    (e : string) :
  wf_slice h s → contents h s = Some I →
  (e ≠ "" →
   select growslice h s e []
   = Some (filter (λ server, Environment server = e) I))
  ∧ select growslice h s "" [] = Some I.
Proof.
  intros Hwf Hc. split.
  - intros He. rewrite (select_selected growslice h s I) by done.
    by rewrite selected_environment.
  - by rewrite (select_selected growslice h s I).
Qed.

(** C3, amended.  For every tag name [t], the expression [!t] keeps
    exactly the servers of the inventory whose tags do not contain [t];
    and for a tag name [t] that does not itself begin with [!], the
    expression [t] keeps exactly the servers whose tags contain [t], and
    the two in a row keep none. *)
Theorem select_tag_and_negation (h : heap) (s : slice) (I : list Server)
    (t : string) :
  wf_slice h s → contents h s = Some I →
  (HasPrefix t "!" = false →
   select growslice h s "" [t] = Some (filter (λ server, t ∈ Tags server) I))
  ∧ select growslice h s "" ["!" +:+ t]
    = Some (filter (λ server, t ∉ Tags server) I)
  ∧ (HasPrefix t "!" = false →
     select growslice h s "" [t; "!" +:+ t] = Some []).
Proof.
  intros Hwf Hc.
  rewrite !(select_selected growslice h s I) by done.
  split; [|split].
  - intros Ht. f_equal. rewrite selected_one_tag. apply list_filter_iff.
    intros x. by apply keepTag_positive.
  - f_equal. rewrite selected_one_tag. apply list_filter_iff.
    intros x. apply keepTag_negated.
  - intros Ht. f_equal. rewrite selected_passes. apply filter_none.
    intros x. unfold passes. cbn [String.eqb orb forallb].
    rewrite andb_true_r, andb_true_l, andb_true_iff.
    rewrite keepTag_positive, keepTag_negated by done. tauto.
Qed.

(** C5, amended.  The selection returns, and the servers it returns
    depend only on the servers, the environment and the tag expressions
    it is given; but it filters in place.  The slice returned shares the
    array of the inventory, no array is allocated and no other array is
    touched; afterwards the inventory has its length and begins with the
    servers selected; and when no server is dropped, store and slice are
    left as they were. *)
Theorem select_filters_in_place (h : heap) (s : slice) (I : list Server)
    (e : string) (tags : list string) :
  wf_slice h s → contents h s = Some I →
  ∃ h' s' I',
    filterServers growslice s e tags h = Some (s', h')
    ∧ contents h' s' = Some (selected I e tags)
    ∧ ptr s' = ptr s ∧ cap s' = cap s
    ∧ length h' = length h
    ∧ (∀ p, p ≠ ptr s → h' !! p = h !! p)
    ∧ contents h' s = Some I'
    ∧ length I' = length I
    ∧ take (len s') I' = selected I e tags
    ∧ (selected I e tags = I → h' = h ∧ s' = s).
Proof.
  intros Hwf Hc.
  destruct (filterServers_run growslice h s I e tags Hwf Hc)
    as (h' & s' & a & a' & Hrun & Hp & HI & Hip & Hwf' & Hc').
  destruct (contents_Some h s I Hwf Hc) as (a0 & Hp0 & Hlen & Hcap & _).
  assert (a0 = a) as -> by congruence.
  destruct Hip as [Hs' Hh' Hsub Hres Hrest Hlength _].
  assert (Hls : length (selected I e tags) ≤ len s).
  { apply sublist_length in Hsub. rewrite length_take in Hsub. lia. }
  exists h', s', (take (len s) a').
  split; [done|]. split; [done|].
  rewrite Hs'. cbn [ptr len cap].
  split; [done|]. split; [done|].
  split; [by rewrite Hh', length_insert|].
  split; [by intros p Hne; rewrite Hh', list_lookup_insert_ne|].
  split.
  { unfold contents. rewrite Hh'.
    rewrite list_lookup_insert_eq by (by eapply lookup_lt_Some).
    cbn. by rewrite decide_True by lia. }
  split; [by rewrite HI, !length_take_le by lia|].
  split; [by rewrite take_take, Nat.min_l|].
  intros Heq.
  pose proof (filterServers_fixed growslice h s I e tags Hwf Hc Heq) as Hfix.
  rewrite Hrun in Hfix. injection Hfix as Hs Hh. split; [done|].
  by rewrite <- Hs, Hs'.
Qed.

(** C6.  Selecting again with the same environment and tag expressions
    changes nothing: the selection applied to its own result returns the
    same servers, in the same slice of the same store. *)
Theorem select_idempotent (h : heap) (s : slice) (I : list Server)
    (e : string) (tags : list string) :
  wf_slice h s → contents h s = Some I →
  ∃ h1 s1 I1,
    filterServers growslice s e tags h = Some (s1, h1)
    ∧ select growslice h s e tags = Some I1
    ∧ select growslice h1 s1 e tags = Some I1
    ∧ filterServers growslice s1 e tags h1 = Some (s1, h1).
Proof.
  intros Hwf Hc.
  destruct (filterServers_run growslice h s I e tags Hwf Hc)
    as (h1 & s1 & a & a' & Hrun & _ & _ & _ & Hwf1 & Hc1).
  exists h1, s1, (selected I e tags).
  split; [done|]. split; [by apply select_selected|].
  split.
  - by rewrite (select_selected growslice h1 s1 _ e tags Hwf1 Hc1),
               selected_idempotent.
  - apply (filterServers_fixed growslice h1 s1 _ e tags Hwf1 Hc1).
    apply selected_idempotent.
Qed.

(** C7.  The servers selected keep the relative order they have in the
    inventory, and so do those that either filter stage keeps: each
    result is the list it was given with some servers left out. *)
Theorem select_preserves_order (h : heap) (s : slice) (I : list Server)
    (e : string) (tags : list string) (tag : string) :
  wf_slice h s → contents h s = Some I →
  (∃ l, select growslice h s e tags = Some l ∧ l `sublist_of` I)
  ∧ (∃ h' s' l, filterByEnvironment growslice s e h = Some (s', h')
       ∧ contents h' s' = Some l ∧ l `sublist_of` I)
  ∧ (∃ h' s' l, filterByTag growslice s tag h = Some (s', h')
       ∧ contents h' s' = Some l ∧ l `sublist_of` I).
Proof.
  intros Hwf Hc. split; [|split].
  - exists (selected I e tags).
    split; [by apply select_selected | apply selected_sublist].
  - rewrite filterByEnvironment_keep.
    destruct (stage_contents growslice (keepEnvironment e) h s I Hwf Hc)
      as (h' & s' & Hrun & Hc').
    eexists h', s', _. split; [done|]. split; [done|]. apply sublist_filter.
  - rewrite filterByTag_keep.
    destruct (stage_contents growslice (keepTag tag) h s I Hwf Hc)
      as (h' & s' & Hrun & Hc').
    eexists h', s', _. split; [done|]. split; [done|]. apply sublist_filter.
Qed.

End SelectionClaims.

(** The one empty expression is a tag like any other: it keeps the
    servers that carry the empty tag. *)
Lemma select_empty_expression (growslice : nat → nat) (h : heap) (s : slice)
    (I : list Server) (e : string) :
  wf_slice h s → contents h s = Some I →
  select growslice h s e [""]
  = Some (filter (λ server, "" ∈ Tags server) (selected I e [])).
Proof.
  intros Hwf Hc. rewrite (select_selected growslice h s I) by done.
  f_equal. unfold selected. cbn [foldl].
  apply list_filter_iff. intros x. by apply keepTag_positive.
Qed.

(** ** The library functions on examples *)

Example Split_examples :
  Split "web,!db" "," = ["web"; "!db"]
  ∧ Split "a,,b," "," = ["a"; ""; "b"; ""]
  ∧ Split "" "," = [""].
Proof. by vm_compute. Qed.

Example Trim_nl_examples :
  Trim_nl ("ok" +:+ nl) = "ok"
  ∧ Trim_nl (nl +:+ nl +:+ "a" +:+ nl +:+ "b" +:+ nl) = "a" +:+ nl +:+ "b"
  ∧ Trim_nl nl = "".
Proof. by vm_compute. Qed.

Example ExitStatus_examples :
  ExitStatus 0 = 0%Z ∧ ExitStatus 512 = 2%Z ∧ ExitStatus 65280 = 255%Z
  ∧ ExitStatus 9 = (-1)%Z.
Proof. by vm_compute. Qed.

Example TrimPrefix_examples :
  TrimPrefix "!db" "!" = "db" ∧ TrimPrefix "db" "!" = "db"
  ∧ TrimPrefix "!!x" "!" = "!x" ∧ TrimPrefix "!" "!" = "".
Proof. by vm_compute. Qed.

(** ** The selection on the scenario *)

(** C1.  With no tag given, [main] passes [strings.Split("", ",")], the
    one empty expression, and the selection then keeps only servers that
    carry the empty tag: on the scenario it keeps none, where the empty
    sequence of expressions keeps all three. *)
Theorem select_empty_tag_expression :
  Split "" "," = [""]
  ∧ select doubling scenario_heap scenario_slice "" (Split "" ",") = Some []
  ∧ select doubling scenario_heap scenario_slice "" [] = Some scenario
  ∧ stdout (listAction demo_MarshalIndent demo_ReadFile demo_Unmarshal
              doubling "servers.json" "" "" "names" world0).2
    = nl +:+ nl.
Proof. by vm_compute. Qed.

(** The selections of the scenario. *)
Example select_scenario_prod :
  select doubling scenario_heap scenario_slice "prod" []
  = Some [serverA; serverC].
Proof. reflexivity. Qed.

Example select_scenario_web :
  select doubling scenario_heap scenario_slice "" ["web"]
  = Some [serverB; serverC].
Proof. reflexivity. Qed.

Example select_scenario_not_db :
  select doubling scenario_heap scenario_slice "" ["!db"] = Some [serverB].
Proof. reflexivity. Qed.

Lemma select_environment_only_witness :
  select doubling scenario_heap scenario_slice "prod" []
  = Some (filter (λ server, Environment server = "prod") scenario)
  ∧ select doubling scenario_heap scenario_slice "" [] = Some scenario.
Proof.
  destruct (select_environment_only doubling scenario_heap scenario_slice
              scenario "prod" scenario_wf eq_refl) as [Henv Hall].
  split; [apply Henv; discriminate | exact Hall].
Defined.

(** A tag name may begin with [!]: as an expression it is then read as
    a negation.  On a server without tags, the expression [!x] keeps the
    server, which does not carry the tag [!x]; and [!x] followed by its
    negation [!!x] keeps it too. *)
Lemma select_tag_bang_name :
  let I := [mkServer "A" "" []] in
  select doubling [I] (Slice 0 1 1) "" ["!x"] = Some I
  ∧ select doubling [I] (Slice 0 1 1) "" ["!x"]
    ≠ Some (filter (λ server, "!x" ∈ Tags server) I)
  ∧ select doubling [I] (Slice 0 1 1) "" ["!x"; "!" +:+ "!x"] ≠ Some [].
Proof. by vm_compute. Qed.

Lemma select_tag_and_negation_witness :
  select doubling scenario_heap scenario_slice "" ["web"]
  = Some (filter (λ server, "web" ∈ Tags server) scenario)
  ∧ select doubling scenario_heap scenario_slice "" ["!" +:+ "web"]
    = Some (filter (λ server, "web" ∉ Tags server) scenario)
  ∧ select doubling scenario_heap scenario_slice "" ["web"; "!" +:+ "web"]
    = Some [].
Proof.
  destruct (select_tag_and_negation doubling scenario_heap scenario_slice
              scenario "web" scenario_wf eq_refl)
    as (Hpositive & Hnegated & Hboth).
  split; [exact (Hpositive eq_refl) | split; [exact Hnegated |]].
  exact (Hboth eq_refl).
Defined.

(** Selecting the environment [prod] on the scenario overwrites the
    second cell of the inventory: after the call the inventory reads
    A, C, C where it read A, B, C. *)
Lemma select_overwrites_inventory :
  filterServers doubling scenario_slice "prod" [] scenario_heap
  = Some (Slice 0 2 3, [[serverA; serverC; serverC]])
  ∧ contents scenario_heap scenario_slice = Some [serverA; serverB; serverC]
  ∧ contents [[serverA; serverC; serverC]] scenario_slice
    ≠ contents scenario_heap scenario_slice
  ∧ select doubling [[serverA; serverC; serverC]] scenario_slice "prod" []
    ≠ select doubling scenario_heap scenario_slice "prod" [].
Proof.
  split; [reflexivity | split; [reflexivity | split; discriminate]].
Qed.

Lemma select_filters_in_place_witness :
  ∃ h' s' I',
    filterServers doubling scenario_slice "prod" ["db"] scenario_heap
    = Some (s', h')
    ∧ contents h' s' = Some (selected scenario "prod" ["db"])
    ∧ ptr s' = ptr scenario_slice ∧ cap s' = cap scenario_slice
    ∧ length h' = length scenario_heap
    ∧ (∀ p, p ≠ ptr scenario_slice → h' !! p = scenario_heap !! p)
    ∧ contents h' scenario_slice = Some I'
    ∧ length I' = length scenario
    ∧ take (len s') I' = selected scenario "prod" ["db"]
    ∧ (selected scenario "prod" ["db"] = scenario
       → h' = scenario_heap ∧ s' = scenario_slice).
Proof.
  exact (select_filters_in_place doubling scenario_heap scenario_slice
           scenario "prod" ["db"] scenario_wf eq_refl).
Defined.

Lemma select_idempotent_witness :
  ∃ h1 s1 I1,
    filterServers doubling scenario_slice "prod" ["web"] scenario_heap
    = Some (s1, h1)
    ∧ select doubling scenario_heap scenario_slice "prod" ["web"] = Some I1
    ∧ select doubling h1 s1 "prod" ["web"] = Some I1
    ∧ filterServers doubling s1 "prod" ["web"] h1 = Some (s1, h1).
Proof.
  exact (select_idempotent doubling scenario_heap scenario_slice
           scenario "prod" ["web"] scenario_wf eq_refl).
Defined.

Lemma select_preserves_order_witness :
  (∃ l, select doubling scenario_heap scenario_slice "prod" ["db"] = Some l
        ∧ l `sublist_of` scenario)
  ∧ (∃ h' s' l,
       filterByEnvironment doubling scenario_slice "prod" scenario_heap
       = Some (s', h')
       ∧ contents h' s' = Some l ∧ l `sublist_of` scenario)
  ∧ (∃ h' s' l,
       filterByTag doubling scenario_slice "web" scenario_heap = Some (s', h')
       ∧ contents h' s' = Some l ∧ l `sublist_of` scenario).
Proof.
  exact (select_preserves_order doubling scenario_heap scenario_slice
           scenario "prod" ["db"] "web" scenario_wf eq_refl).
Defined.

(** ** Presentation and dispatch *)

Lemma string_app_cons (c : ascii) (s t : string) :
  String c s +:+ t = String c (s +:+ t).
Proof. reflexivity. Qed.

Lemma string_app_assoc (s t u : string) : (s +:+ t) +:+ u = s +:+ (t +:+ u).
Proof.
  induction s as [|c s IH]; [done|].
  by rewrite !string_app_cons, IH.
Qed.

Lemma string_app_nil_r (s : string) : s +:+ "" = s.
Proof. induction s as [|c s IH]; [done|]. by rewrite string_app_cons, IH. Qed.

(** The loop of [listNamesOutput] joins the names left with commas. *)
Lemma listNames_loop_concat (count : nat) (rest : list Server) :
  ∀ (index : nat) (buffer : string),
    index + length rest = count →
    listNames_loop (Z.of_nat count) (Z.of_nat index) rest buffer
    = buffer +:+ String.concat "," (map Name rest).
Proof.
  induction rest as [|server rest IH]; intros index buffer Hcount.
  - cbn. by rewrite string_app_nil_r.
  - cbn [listNames_loop]. cbn [length] in Hcount.
    replace (Z.of_nat index + 1)%Z with (Z.of_nat (S index)) by lia.
    rewrite IH by lia. destruct rest as [|next rest].
    + cbn [length] in Hcount.
      destruct (Z.ltb_spec (Z.of_nat index) (Z.of_nat count - 1)); [lia|].
      cbn. by rewrite string_app_nil_r.
    + cbn [length] in Hcount.
      destruct (Z.ltb_spec (Z.of_nat index) (Z.of_nat count - 1)); [|lia].
      cbn [map String.concat]. by rewrite !string_app_assoc.
Qed.

Section ProcessClaims.

Variable MarshalIndent : list Server → string + string.
Variable ReadFile : string → string + string.
Variable Unmarshal : string → list Server * nat.
Variable rgbterm_String : string → Z → Z → Z → Z → Z → Z → string.
Variable log_header : string.
Variable RuneCountInString : string → nat.
Variable pmrun : nat → list string → Launch.
Variable growslice : nat → nat.

(** C9.  The [names] format prints the names of the servers with one
    comma between neighbours, nothing before the first or after the
    last, and ends the line; for the servers A and C of the scenario the
    line is [A,C]. *)
Theorem formatList_names (servers : list Server) (w : world) :
  formatList MarshalIndent servers "names" w
  = (Done tt,
     World (stdout w +:+ (String.concat "," (map Name servers) +:+ nl))
           (stderr w) (launched w))
  ∧ formatList MarshalIndent [serverA; serverC] "names" world0
    = (Done tt, World ("A,C" +:+ nl) "" []).
Proof.
  split; [|reflexivity].
  unfold formatList. cbn [String.eqb Ascii.eqb Bool.eqb].
  change (String.eqb "names" "names") with true. cbv iota.
  unfold listNamesOutput, Println, Print.
  pose proof (listNames_loop_concat (length servers) servers 0 "" eq_refl)
    as Hloop.
  change (Z.of_nat 0) with 0%Z in Hloop. by rewrite Hloop.
Qed.

(** C10.  The indicator of an exit code is its decimal text in white
    (255, 255, 255) on green (0, 255, 0) when the code is zero and on
    red (255, 0, 0) when it is not. *)
Theorem colorizeExitCode_colors (exitCode : Z) :
  colorizeExitCode rgbterm_String exitCode
  = (if Z.eqb exitCode 0
     then rgbterm_String (Itoa exitCode) 255 255 255 0 255 0
     else rgbterm_String (Itoa exitCode) 255 255 255 255 0 0)%Z
  ∧ Itoa 0 = "0" ∧ Itoa 2 = "2" ∧ Itoa 255 = "255" ∧ Itoa (-1) = "-1".
Proof.
  split; [|by vm_compute].
  unfold colorizeExitCode. by destruct (Z.eqb exitCode 0).
Qed.

Local Abbreviation execCommand' := (execCommand log_header pmrun).
Local Abbreviation exec_range' :=
  (exec_range rgbterm_String log_header RuneCountInString pmrun).
Local Abbreviation report' := (report rgbterm_String RuneCountInString).
Local Abbreviation execAction' :=
  (execAction ReadFile Unmarshal rgbterm_String log_header RuneCountInString
              pmrun growslice).

(** A helper that starts gives [execCommand] a result, whatever
    [cmd.Wait] says afterwards. *)
Lemma execCommand_started server user cmd w er out err :
  pmrun (length (launched w)) (Command_args server user cmd)
  = Started er out err →
  execCommand' server user cmd w
  = (Done (exit_code er, out, err),
     World (stdout w) (stderr w)
           (launched w ++ [Command_args server user cmd])).
Proof.
  intros Hrun. unfold execCommand. rewrite Hrun.
  by destruct er as [[[status|]|]|].
Qed.

(** A helper that does not start ends the process. *)
Lemma execCommand_start_failed server user cmd w msg :
  pmrun (length (launched w)) (Command_args server user cmd)
  = StartFailed msg →
  execCommand' server user cmd w
  = (Exit 1%Z,
     World (stdout w)
           (stderr w +:+ (log_header +:+ fatal_line ("cmd.Start: " +:+ msg)))
           (launched w ++ [Command_args server user cmd])).
Proof. intros Hrun. unfold execCommand. by rewrite Hrun. Qed.

(** One iteration of the loop of the [exec] action. *)
Lemma exec_range_cons_started server rest user cmd w er out err :
  pmrun (length (launched w)) (Command_args server user cmd)
  = Started er out err →
  exec_range' (server :: rest) user cmd w
  = exec_range' rest user cmd
      (World (stdout w +:+ report' server (exit_code er) out err)
             (stderr w)
             (launched w ++ [Command_args server user cmd])).
Proof.
  intros Hrun. cbn [exec_range]. unfold pbind at 1.
  rewrite (execCommand_started _ _ _ _ _ _ _ Hrun).
  unfold pbind at 1, Print at 1. cbn [stdout stderr launched].
  unfold pbind at 1, report. f_equal.
  destruct (negb (String.eqb err "")).
  - unfold Print. cbn [stdout stderr launched]. by rewrite !string_app_assoc.
  - unfold pret. by rewrite string_app_nil_r.
Qed.

Lemma starts_cons base server rest user cmd :
  starts pmrun base (server :: rest) user cmd →
  (∃ er out err,
     pmrun base (Command_args server user cmd) = Started er out err)
  ∧ starts pmrun (S base) rest user cmd.
Proof.
  intros Hstarts. split.
  - destruct (Hstarts 0 server eq_refl) as (er & out & err & Hrun).
    rewrite Nat.add_0_r in Hrun. eauto.
  - intros i x Hx. destruct (Hstarts (S i) x Hx) as (er & out & err & Hrun).
    rewrite Nat.add_succ_r in Hrun. eauto.
Qed.

(** When every helper starts, the loop reaches its end: every server
    was dispatched, in order, and nothing was written to standard
    error, whatever the exit codes. *)
Lemma exec_range_started servers user cmd :
  ∀ w, starts pmrun (length (launched w)) servers user cmd →
    ∃ text,
      exec_range' servers user cmd w
      = (Done tt,
         World (stdout w +:+ text) (stderr w)
               (launched w ++ map (λ x, Command_args x user cmd) servers)).
Proof.
  induction servers as [|server rest IH]; intros w Hstarts.
  - exists "". cbn. unfold pret. rewrite string_app_nil_r, app_nil_r.
    by destruct w.
  - apply starts_cons in Hstarts as [(er & out & err & Hrun) Hrest].
    rewrite (exec_range_cons_started _ _ _ _ _ _ _ _ Hrun).
    edestruct (IH (World (stdout w +:+ report' server (exit_code er) out err)
                         (stderr w)
                         (launched w ++ [Command_args server user cmd])))
      as [text Htext].
    { cbn [launched]. rewrite length_app. cbn [length].
      by rewrite Nat.add_1_r. }
    rewrite Htext. cbn [stdout stderr launched].
    exists (report' server (exit_code er) out err +:+ text).
    by rewrite string_app_assoc, <- app_assoc.
Qed.

(** When the helper of the server [x] does not start, the servers
    before it have been dispatched and reported, and the process ends
    there with status 1 and a line on standard error; the servers after
    [x] play no part. *)
Lemma exec_range_start_failed pre x post user cmd msg :
  ∀ w, starts pmrun (length (launched w)) pre user cmd →
    pmrun (length (launched w) + length pre) (Command_args x user cmd)
    = StartFailed msg →
    ∃ text,
      exec_range' pre user cmd w
      = (Done tt,
         World (stdout w +:+ text) (stderr w)
               (launched w ++ map (λ x, Command_args x user cmd) pre))
      ∧ exec_range' (pre ++ x :: post) user cmd w
        = (Exit 1%Z,
           World (stdout w +:+ text)
                 (stderr w
                  +:+ (log_header +:+ fatal_line ("cmd.Start: " +:+ msg)))
                 (launched w
                  ++ map (λ x, Command_args x user cmd) (pre ++ [x]))).
Proof.
  induction pre as [|server rest IH]; intros w Hstarts Hfail.
  - exists "". cbn [app map length] in *. rewrite Nat.add_0_r in Hfail.
    rewrite string_app_nil_r, app_nil_r. split; [by destruct w|].
    cbn [exec_range]. unfold pbind at 1.
    by rewrite (execCommand_start_failed _ _ _ _ _ Hfail).
  - apply starts_cons in Hstarts as [(er & out & err & Hrun) Hrest].
    rewrite <- app_comm_cons.
    rewrite !(exec_range_cons_started _ _ _ _ _ _ _ _ Hrun).
    edestruct (IH (World (stdout w +:+ report' server (exit_code er) out err)
                         (stderr w)
                         (launched w ++ [Command_args server user cmd])))
      as (text & Hpre & Hall).
    { cbn [launched]. rewrite length_app. cbn [length].
      by rewrite Nat.add_1_r. }
    { cbn [launched]. rewrite length_app. cbn [length] in *.
      by rewrite <- Hfail, Nat.add_1_r, Nat.add_succ_r. }
    rewrite Hpre, Hall. cbn [stdout stderr launched].
    exists (report' server (exit_code er) out err +:+ text).
    by rewrite string_app_assoc, <- !app_assoc.
Qed.

(** The inventory file read and decoded, then the selection. *)
Lemma getServers_read configFile raw inventory spare w :
  ReadFile configFile = inl raw → Unmarshal raw = (inventory, spare) →
  getServers ReadFile Unmarshal configFile w
  = (Done ([inventory ++ replicate spare zeroServer],
           Slice 0 (length inventory) (length inventory + spare)), w).
Proof. intros Hread Hdecode. unfold getServers. by rewrite Hread, Hdecode. Qed.

Lemma selectServers_selected inventory spare environment tags w :
  selectServers growslice
    ([inventory ++ replicate spare zeroServer],
     Slice 0 (length inventory) (length inventory + spare))
    environment tags w
  = (Done (selected inventory environment (Split tags ",")), w).
Proof.
  set (h := [inventory ++ replicate spare zeroServer]).
  set (s := Slice 0 (length inventory) (length inventory + spare)).
  assert (Hwf : wf_slice h s).
  { exists (inventory ++ replicate spare zeroServer). cbn.
    rewrite length_app, length_replicate. repeat split; lia. }
  assert (Hc : contents h s = Some inventory).
  { unfold contents. cbn. rewrite decide_True by (rewrite length_app; lia).
    by rewrite take_app_length. }
  destruct (filterServers_run growslice h s inventory environment
              (Split tags ",") Hwf Hc)
    as (h' & s' & _ & _ & Hrun & _ & _ & _ & _ & Hc').
  unfold selectServers. cbn [fst snd]. by rewrite Hrun, Hc'.
Qed.

Lemma execAction_dispatch configFile environment tags user cmd raw inventory spare :
  ReadFile configFile = inl raw → Unmarshal raw = (inventory, spare) →
  execAction' configFile environment tags user cmd world0
  = (exec_range' (selected inventory environment (Split tags ",")) user cmd ;;;
     Println "") world0.
Proof.
  intros Hread Hdecode. unfold execAction. unfold pbind at 1.
  rewrite (getServers_read _ _ _ _ _ Hread Hdecode).
  unfold pbind at 1. by rewrite selectServers_selected.
Qed.

(** C4.  In the [exec] action, on an inventory that was read and decoded:
    when the helper of a selected server cannot be started, the process
    ends at once with status 1 and the diagnostic on standard error,
    having reported only the servers before it and launched no helper
    after it; when every helper starts, the process ends with status 0
    after dispatching every selected server, whatever the remote exit
    codes; and a helper that ran and exited with a status gives
    [execCommand] that status as a result. *)
Theorem execAction_exit_status configFile environment tags user cmd
    raw inventory spare :
  ReadFile configFile = inl raw → Unmarshal raw = (inventory, spare) →
  let sel := selected inventory environment (Split tags ",") in
  let run := execAction' configFile environment tags user cmd world0 in
  (∀ pre x post msg,
     sel = pre ++ x :: post →
     starts pmrun 0 pre user cmd →
     pmrun (length pre) (Command_args x user cmd) = StartFailed msg →
     ∃ text,
       exec_range' pre user cmd world0
       = (Done tt, World text "" (map (λ x, Command_args x user cmd) pre))
       ∧ run = (Exit 1%Z,
                World text
                      (log_header +:+ fatal_line ("cmd.Start: " +:+ msg))
                      (map (λ x, Command_args x user cmd) (pre ++ [x])))
       ∧ exit_status run = 1%Z)
  ∧ (starts pmrun 0 sel user cmd →
     ∃ text,
       run = (Done tt,
              World text "" (map (λ x, Command_args x user cmd) sel))
       ∧ exit_status run = 0%Z)
  ∧ (∀ server w status out err,
       pmrun (length (launched w)) (Command_args server user cmd)
       = Started (Some (ExitError (SysWaitStatus status))) out err →
       (execCommand' server user cmd w).1 = Done (ExitStatus status, out, err)).
Proof.
  intros Hread Hdecode sel run.
  assert (Hrun : run = (exec_range' sel user cmd ;;; Println "") world0)
    by (by apply (execAction_dispatch _ _ _ _ _ raw inventory spare)).
  split; [|split].
  - intros pre x post msg Hsel Hpre Hfail.
    destruct (exec_range_start_failed pre x post user cmd msg world0 Hpre Hfail)
      as (text & Hdone & Hexit).
    change (stdout world0) with "" in *. change (stderr world0) with "" in *.
    change (launched world0) with (@nil (list string)) in *.
    cbn [app] in *. change ("" +:+ ?t) with t in *.
    exists text. split; [done|].
    assert (run = (Exit 1%Z,
                   World text
                         (log_header +:+ fatal_line ("cmd.Start: " +:+ msg))
                         (map (λ x, Command_args x user cmd) (pre ++ [x]))))
      as Hr.
    { rewrite Hrun, Hsel. unfold pbind. by rewrite Hexit. }
    split; [done|]. by rewrite Hr.
  - intros Hsel.
    destruct (exec_range_started sel user cmd world0 Hsel) as [text Htext].
    change (stdout world0) with "" in *. change (stderr world0) with "" in *.
    change (launched world0) with (@nil (list string)) in *.
    cbn [app] in *. change ("" +:+ ?t) with t in *.
    exists (text +:+ ("" +:+ nl)).
    assert (run = (Done tt,
                   World (text +:+ ("" +:+ nl)) ""
                         (map (λ x, Command_args x user cmd) sel))) as Hr.
    { rewrite Hrun. unfold pbind. by rewrite Htext. }
    split; [done|]. by rewrite Hr.
  - intros server w status out err Hstarted.
    by rewrite (execCommand_started _ _ _ _ _ _ _ Hstarted).
Qed.

(** C8.  When [cmd.Wait] returns an error that is not an [*exec.ExitError],
    or one whose status is not a [syscall.WaitStatus], [execCommand]
    returns the exit code 0 with the two captured streams, and the
    [exec] action reports the server with the indicator of success: the
    text [0] in white on green. *)
Theorem execCommand_wait_error_is_success server user cmd w er out err :
  pmrun (length (launched w)) (Command_args server user cmd)
  = Started (Some er) out err →
  er = OtherError ∨ er = ExitError SysOther →
  (execCommand' server user cmd w).1 = Done (0%Z, out, err)
  ∧ stdout (exec_range' [server] user cmd w).2
    = stdout w +:+ report' server 0 out err
  ∧ colorizeExitCode rgbterm_String 0
    = rgbterm_String "0" 255 255 255 0 255 0.
Proof.
  intros Hrun Her.
  assert (exit_code (Some er) = 0%Z) as Hcode by (by destruct Her as [-> | ->]).
  split; [|split].
  - by rewrite (execCommand_started _ _ _ _ _ _ _ Hrun), Hcode.
  - by rewrite (exec_range_cons_started _ _ _ _ _ _ _ _ Hrun), Hcode.
  - reflexivity.
Qed.

End ProcessClaims.

(** ** The dispatch on the scenario *)

(** The dispatch scenario: A's helper exits 0 after printing [ok], B's
    exits 2 with [denied] on its standard error, C's cannot be started. *)
Example exec_scenario :
  exec_range demo_rgbterm "" String.length demo_pmrun scenario
             "root" "uptime" world0
  = (Exit 1%Z,
     World (report demo_rgbterm String.length serverA 0 ("ok" +:+ nl) ""
            +:+ report demo_rgbterm String.length serverB 2 "" "denied")
           (fatal_line
              "cmd.Start: exec: pmrun: executable file not found in $PATH")
           (map (λ x, Command_args x "root" "uptime") scenario)).
Proof. by vm_compute. Qed.

Lemma starts_serverB : starts demo_pmrun 0 [serverB] "root" "uptime".
Proof.
  intros [|i] server Hserver.
  - injection Hserver as <-. by eexists _, _, _.
  - destruct i; discriminate.
Defined.

Lemma execAction_exit_status_witness :
  let run := execAction demo_ReadFile demo_Unmarshal demo_rgbterm ""
               String.length demo_pmrun doubling
               "servers.json" "" "web" "root" "uptime" world0 in
  exit_status run = 1%Z
  ∧ launched run.2
    = [Command_args serverB "root" "uptime";
       Command_args serverC "root" "uptime"].
Proof.
  destruct (execAction_exit_status demo_ReadFile demo_Unmarshal demo_rgbterm ""
              String.length demo_pmrun doubling
              "servers.json" "" "web" "root" "uptime" "inventory" scenario 1
              eq_refl eq_refl) as [Hfail _].
  destruct (Hfail [serverB] serverC []
              "exec: pmrun: executable file not found in $PATH"
              eq_refl starts_serverB eq_refl) as (text & _ & Hrun & Hstatus).
  split; [exact Hstatus | by rewrite Hrun].
Defined.

Lemma execCommand_wait_error_is_success_witness :
  (execCommand "" demo_pmrun_wait serverA "root" "uptime" world0).1
  = Done (0%Z, "partial", "")
  ∧ stdout (exec_range demo_rgbterm "" String.length demo_pmrun_wait
              [serverA] "root" "uptime" world0).2
    = stdout world0 +:+ report demo_rgbterm String.length serverA 0 "partial" ""
  ∧ colorizeExitCode demo_rgbterm 0 = demo_rgbterm "0" 255 255 255 0 255 0.
Proof.
  exact (execCommand_wait_error_is_success demo_rgbterm "" String.length
           demo_pmrun_wait serverA "root" "uptime" world0 OtherError
           "partial" "" eq_refl (or_introl eq_refl)).
Defined.

(** ** Further properties of the selection *)

Lemma keepTag_spec (tag : string) (server : Server) :
  keepTag tag server = true
  ↔ if HasPrefix tag "!"
    then TrimPrefix tag "!" ∉ Tags server
    else tag ∈ Tags server.
Proof.
  unfold keepTag. destruct (HasPrefix tag "!").
  - apply contains_not_elem_of.
  - apply contains_elem_of.
Qed.

Lemma passes_spec (environment : string) (tags : list string) (server : Server) :
  passes environment tags server = true
  ↔ (environment = "" ∨ Environment server = environment)
    ∧ ∀ tag, tag ∈ tags → keepTag tag server = true.
Proof.
  unfold passes, keepEnvironment.
  rewrite andb_true_iff, orb_true_iff, forallb_forall.
  rewrite !String.eqb_eq.
  split; intros [Henv Htags]; (split; [done|]);
    intros tag Htag; apply Htags; by apply list_elem_of_In.
Qed.

Lemma selected_app (I : list Server) (e : string) (tags1 tags2 : list string) :
  selected I e (tags1 ++ tags2) = selected (selected I e tags1) "" tags2.
Proof. unfold selected at 1 2. by rewrite foldl_app. Qed.

Section SelectionProperties.

Variable growslice : nat → nat.

(** X1.  [contains] is membership: whether a tag is found depends only on
    which tags the list holds, not on their order or repetition. *)
Theorem contains_as_set (tags tags' : list string) (t : string) :
  (∀ x, x ∈ tags ↔ x ∈ tags') →
  (contains tags t = true ↔ t ∈ tags)
  ∧ contains tags t = contains tags' t.
Proof.
  intros Hsame. split; [apply contains_elem_of|].
  destruct (contains tags t) eqn:Hc, (contains tags' t) eqn:Hc'; try done.
  - apply contains_elem_of, Hsame, contains_elem_of in Hc. congruence.
  - apply contains_elem_of, Hsame, contains_elem_of in Hc'. congruence.
Qed.

(** X2.  The servers selected are exactly the servers of the inventory whose
    environment is the one asked for, when one is asked for, and that
    satisfy every tag expression: the tag named after [!] is absent, or
    the tag named is present. *)
Theorem select_elem_of (h : heap) (s : slice) (I : list Server)
    (e : string) (tags : list string) :
  wf_slice h s → contents h s = Some I →
  ∃ l, select growslice h s e tags = Some l
    ∧ ∀ x, x ∈ l
        ↔ x ∈ I
          ∧ (e = "" ∨ Environment x = e)
          ∧ ∀ tag, tag ∈ tags →
              if HasPrefix tag "!"
              then TrimPrefix tag "!" ∉ Tags x
              else tag ∈ Tags x.
Proof.
  intros Hwf Hc. exists (selected I e tags).
  split; [by apply select_selected|].
  intros x. rewrite selected_passes, list_elem_of_filter, passes_spec.
  split.
  - intros ([Henv Htags] & Hx). split; [done|]. split; [done|].
    intros tag Htag. by apply keepTag_spec, Htags.
  - intros (Hx & Henv & Htags). split; [|done]. split; [done|].
    intros tag Htag. by apply keepTag_spec, Htags.
Qed.

(** X3.  Tag expressions are a conjunction: two sequences that hold the same
    expressions, in any order and with any repetition, select the same
    servers. *)
Theorem select_same_expressions (h : heap) (s : slice) (I : list Server)
    (e : string) (tags tags' : list string) :
  wf_slice h s → contents h s = Some I →
  (∀ tag, tag ∈ tags ↔ tag ∈ tags') →
  select growslice h s e tags = select growslice h s e tags'.
Proof.
  intros Hwf Hc Hsame.
  rewrite !(select_selected growslice h s I) by done.
  rewrite !selected_passes. f_equal. apply list_filter_iff.
  intros x. rewrite !passes_spec.
  split; intros [Henv Htags]; (split; [done|]);
    intros tag Htag; by apply Htags, Hsame.
Qed.

(** X4.  Selecting with two sequences of tag expressions one after the other
    is selecting once with the first followed by the second: applied to
    the slice and store that the first selection leaves, the second
    returns what the single selection returns. *)
Theorem select_app (h : heap) (s : slice) (I : list Server)
    (e : string) (tags1 tags2 : list string) :
  wf_slice h s → contents h s = Some I →
  ∃ h1 s1,
    filterServers growslice s e tags1 h = Some (s1, h1)
    ∧ select growslice h1 s1 "" tags2
      = select growslice h s e (tags1 ++ tags2).
Proof.
  intros Hwf Hc.
  destruct (filterServers_run growslice h s I e tags1 Hwf Hc)
    as (h1 & s1 & _ & _ & Hrun & _ & _ & _ & Hwf1 & Hc1).
  exists h1, s1. split; [done|].
  rewrite (select_selected growslice h1 s1 _ "" tags2 Hwf1 Hc1).
  rewrite (select_selected growslice h s I) by done.
  by rewrite selected_app.
Qed.

(** X5.  A tag and its negation among the expressions, wherever they stand,
    leave no server. *)
Theorem select_contradiction (h : heap) (s : slice) (I : list Server)
    (e : string) (tags : list string) (t : string) :
  wf_slice h s → contents h s = Some I →
  HasPrefix t "!" = false → t ∈ tags → "!" +:+ t ∈ tags →
  select growslice h s e tags = Some [].
Proof.
  intros Hwf Hc Ht Hpos Hneg.
  rewrite (select_selected growslice h s I) by done.
  rewrite selected_passes. f_equal. apply filter_none.
  intros x [_ Htags]%passes_spec.
  pose proof (Htags _ Hpos) as Hin. pose proof (Htags _ Hneg) as Hout.
  apply keepTag_positive in Hin; [|done].
  apply keepTag_negated in Hout. done.
Qed.

End SelectionProperties.

(** ** What in-place filtering leaves in the inventory *)

Section Leftovers.

Variable growslice : nat → nat.

Lemma elem_of_take_insert (l : list Server) (n k i : nat) (x y : Server) :
  l !! i = Some x → i < n →
  y ∈ take n (<[k := x]> l) → y ∈ take n l.
Proof.
  intros Hx Hi. rewrite !elem_of_take. intros (j & Hj & Hjn).
  apply list_lookup_insert_Some in Hj as [(_ & <- & _) | (_ & Hj)]; eauto.
Qed.

(** While a filter loop runs, the first [n0] cells of the array only
    ever hold servers that were among them at the start. *)
Lemma range_from_elements (keep : Server → bool) (p n0 c : nat) :
  ∀ (n i k : nat) (a : list Server) (h : heap) s' h',
    h !! p = Some a → k ≤ i → i + n = n0 → n0 ≤ c → c ≤ length a →
    range_from (Slice p n0 c) (keep_body growslice keep) n i (Slice p k c) h
    = Some (s', h') →
    ∃ a', h' !! p = Some a' ∧ ∀ y, y ∈ take n0 a' → y ∈ take n0 a.
Proof.
  induction n as [|n IH]; intros i k a h s' h' Hp Hk Hn Hc Ha Hrun.
  - injection Hrun as _ <-. by exists a.
  - assert (Hi : i < length a) by lia.
    destruct (lookup_lt_is_Some_2 a i Hi) as [x Hx].
    rewrite range_from_S in Hrun.
    rewrite (bind_Some _ _ h x h) in Hrun
      by (apply (index_Some _ _ _ a); [done | done | cbn; lia]).
    unfold keep_body at 1 in Hrun. destruct (keep x).
    + set (a1 := <[k := x]> a) in *. set (h1 := <[p := a1]> h) in *.
      rewrite (bind_Some _ _ h (Slice p (S k) c) h1) in Hrun
        by (apply (append_room growslice (Slice p k c) x h a); [done | cbn; lia]).
      assert (Hp1 : h1 !! p = Some a1).
      { apply list_lookup_insert_eq. by eapply lookup_lt_Some. }
      destruct (IH (S i) (S k) a1 h1 s' h' Hp1) as (a' & Hp' & Hold);
        [lia | lia | done | by (unfold a1; rewrite length_insert) | done |].
      exists a'. split; [done|]. intros y Hy.
      apply (elem_of_take_insert a n0 k i x y); [done | lia |].
      by apply Hold.
    + rewrite (bind_Some _ _ h (Slice p k c) h) in Hrun by done.
      apply (IH (S i) k a h s' h'); [done | lia | lia | done | done | done].
Qed.

(** The same for a whole stage, and for the stages in a row. *)
Lemma stage_elements (keep : Server → bool) (h : heap) (s : slice) a s' h' :
  h !! ptr s = Some a → len s ≤ cap s → cap s ≤ length a →
  range s (keep_body growslice keep) (reslice0 s) h = Some (s', h') →
  ∃ a', h' !! ptr s = Some a'
        ∧ ∀ y, y ∈ take (len s) a' → y ∈ take (len s) a.
Proof.
  intros Hp Hlen Hcap Hrun. destruct s as [p n0 c]. cbn [ptr len cap] in *.
  by apply (range_from_elements keep p n0 c n0 0 0 a h s' h').
Qed.

Lemma elements_trans (a a1 a2 : list Server) (n n1 : nat) :
  n1 ≤ n →
  (∀ y, y ∈ take n a1 → y ∈ take n a) →
  (∀ y, y ∈ take n1 a2 → y ∈ take n1 a1) →
  drop n1 a2 = drop n1 a1 →
  ∀ y, y ∈ take n a2 → y ∈ take n a.
Proof.
  intros Hn Hfirst Hsecond Hrest y Hy. apply Hfirst.
  replace n with (n1 + (n - n1)) in Hy |- * by lia.
  rewrite <- take_take_drop in Hy |- *.
  apply elem_of_app in Hy as [Hy | Hy]; apply elem_of_app.
  - left. by apply Hsecond.
  - right. by rewrite <- Hrest.
Qed.

Lemma in_place_elements_step (h : heap) (s : slice) a l1 h1 s1 a1 s2 h2 l2 a2 :
  in_place h s a l1 h1 s1 a1 →
  (∀ y, y ∈ take (len s) a1 → y ∈ take (len s) a) →
  in_place h1 s1 a1 l2 h2 s2 a2 →
  (∀ y, y ∈ take (len s1) a2 → y ∈ take (len s1) a1) →
  ∀ y, y ∈ take (len s) a2 → y ∈ take (len s) a.
Proof.
  intros Hip1 Hold1 Hip2 Hold2.
  apply (elements_trans a a1 a2 (len s) (len s1)); try done.
  - destruct Hip1 as [-> _ Hsub _ _ _ _]. cbn [len].
    apply sublist_length in Hsub. rewrite length_take in Hsub. lia.
  - by destruct Hip2.
Qed.

Lemma stage_full (keep : Server → bool) (h : heap) (s : slice) a :
  h !! ptr s = Some a → len s ≤ cap s → cap s ≤ length a →
  ∃ h' s' a',
    range s (keep_body growslice keep) (reslice0 s) h = Some (s', h')
    ∧ in_place h s a (filter (λ x, keep x = true) (take (len s) a)) h' s' a'
    ∧ ∀ y, y ∈ take (len s) a' → y ∈ take (len s) a.
Proof.
  intros Hp Hlen Hcap.
  destruct (stage_in_place growslice keep h s a Hp Hlen Hcap)
    as (h' & s' & a' & Hrun & Hip).
  destruct (stage_elements keep h s a s' h' Hp Hlen Hcap Hrun)
    as (a'' & Hp'' & Hold).
  destruct (in_place_wf _ _ _ _ _ _ _ Hp Hlen Hcap Hip) as (Hp' & _).
  destruct Hip as [Hs' Hh' Hsub Hres Hrest Hlength Hsame].
  rewrite Hs' in Hp'. cbn [ptr] in Hp'.
  assert (a'' = a') as -> by congruence.
  exists h', s', a'. split; [done|]. split; [by constructor | done].
Qed.

Lemma range_tags_full (tags : list string) :
  ∀ (h : heap) (s : slice) a,
    h !! ptr s = Some a → len s ≤ cap s → cap s ≤ length a →
    ∃ h' s' a' l',
      range_tags growslice tags s h = Some (s', h')
      ∧ in_place h s a l' h' s' a'
      ∧ ∀ y, y ∈ take (len s) a' → y ∈ take (len s) a.
Proof.
  induction tags as [|tag tags IH]; intros h s a Hp Hlen Hcap.
  - exists h, s, a, (take (len s) a). split; [done|].
    split; [apply in_place_refl; [done | lia] | done].
  - cbn [range_tags]. rewrite filterByTag_keep.
    destruct (stage_full (keepTag tag) h s a Hp Hlen Hcap)
      as (h1 & s1 & a1 & Hrun1 & Hip1 & Hold1).
    rewrite (bind_Some _ _ _ _ _ Hrun1).
    destruct (in_place_wf _ _ _ _ _ _ _ Hp Hlen Hcap Hip1)
      as (Hp1 & Hlen1 & Hcap1 & _).
    destruct (IH h1 s1 a1 Hp1 Hlen1 Hcap1)
      as (h2 & s2 & a2 & l2 & Hrun2 & Hip2 & Hold2).
    exists h2, s2, a2, l2. split; [done|].
    split; [by eapply in_place_trans|].
    by eapply in_place_elements_step.
Qed.

Lemma filterServers_full (h : heap) (s : slice) a environment tags :
  h !! ptr s = Some a → len s ≤ cap s → cap s ≤ length a →
  ∃ h' s' a' l',
    filterServers growslice s environment tags h = Some (s', h')
    ∧ in_place h s a l' h' s' a'
    ∧ ∀ y, y ∈ take (len s) a' → y ∈ take (len s) a.
Proof.
  intros Hp Hlen Hcap. unfold filterServers.
  assert (∃ h1 s1 a1 l1,
    (if negb (String.eqb environment "")
     then filterByEnvironment growslice s environment else ret s) h
      = Some (s1, h1)
    ∧ in_place h s a l1 h1 s1 a1
    ∧ ∀ y, y ∈ take (len s) a1 → y ∈ take (len s) a)
    as (h1 & s1 & a1 & l1 & Hrun1 & Hip1 & Hold1).
  { destruct (negb (String.eqb environment "")).
    - rewrite filterByEnvironment_keep.
      destruct (stage_full (keepEnvironment environment) h s a Hp Hlen Hcap)
        as (h1 & s1 & a1 & Hrun1 & Hip1 & Hold1).
      by eexists h1, s1, a1, _.
    - exists h, s, a, (take (len s) a). split; [done|].
      split; [apply in_place_refl; [done | lia] | done]. }
  rewrite (bind_Some _ _ _ _ _ Hrun1).
  destruct (in_place_wf _ _ _ _ _ _ _ Hp Hlen Hcap Hip1)
    as (Hp1 & Hlen1 & Hcap1 & _).
  destruct tags as [|tag tags].
  - by exists h1, s1, a1, l1.
  - change (negb (length (tag :: tags) =? 0)) with true. cbv iota.
    destruct (range_tags_full (tag :: tags) h1 s1 a1 Hp1 Hlen1 Hcap1)
      as (h2 & s2 & a2 & l2 & Hrun2 & Hip2 & Hold2).
    exists h2, s2, a2, l2. split; [done|].
    split; [by eapply in_place_trans|].
    by eapply in_place_elements_step.
Qed.

(** X6.  In-place filtering only moves servers: after a selection, every
    server the inventory holds is one it held before. *)
Theorem select_leaves_old_servers (h : heap) (s : slice) (I : list Server)
    (e : string) (tags : list string) :
  wf_slice h s → contents h s = Some I →
  ∃ h' s' I',
    filterServers growslice s e tags h = Some (s', h')
    ∧ contents h' s = Some I'
    ∧ ∀ y, y ∈ I' → y ∈ I.
Proof.
  intros Hwf Hc.
  destruct (contents_Some h s I Hwf Hc) as (a & Hp & Hlen & Hcap & ->).
  destruct (filterServers_full h s a e tags Hp Hlen Hcap)
    as (h' & s' & a' & l' & Hrun & Hip & Hold).
  exists h', s', (take (len s) a'). split; [done|]. split; [|done].
  destruct Hip as [_ -> _ _ _ Hlength _].
  unfold contents.
  rewrite list_lookup_insert_eq by (by eapply lookup_lt_Some).
  cbn. by rewrite decide_True by lia.
Qed.

End Leftovers.

(** ** Further properties of presentation and dispatch *)

Lemma string_concat_empty_cons (x : string) (l : list string) :
  String.concat "" (x :: l) = x +:+ String.concat "" l.
Proof. destruct l; cbn; [by rewrite string_app_nil_r | done]. Qed.

Lemma columnarOutput_lines (servers : list Server) :
  ∀ w, columnarOutput servers w
       = (Done tt,
          World (stdout w +:+ String.concat "" (map columnar_line servers))
                (stderr w) (launched w)).
Proof.
  induction servers as [|server rest IH]; intros w.
  - cbn. unfold pret. rewrite string_app_nil_r. by destruct w.
  - cbn [columnarOutput map]. unfold pbind, Print at 1.
    rewrite IH. cbn [stdout stderr launched].
    by rewrite string_concat_empty_cons, string_app_assoc.
Qed.

Lemma ExitStatus_range (status : Z) : (-1 ≤ ExitStatus status ≤ 255)%Z.
Proof.
  unfold ExitStatus. destruct (negb (Exited status)); [lia|].
  change 255%Z with (Z.ones 8). rewrite Z.land_ones by lia.
  pose proof (Z.mod_pos_bound (Z.shiftr status 8) (2 ^ 8)) as Hmod.
  change (Z.ones 8) with (2 ^ 8 - 1)%Z. lia.
Qed.

Lemma ExitStatus_negative (status : Z) :
  ExitStatus status = (-1)%Z ↔ Exited status = false.
Proof.
  unfold ExitStatus. destruct (Exited status); cbn [negb]; [|done].
  split; [|done]. intros Heq.
  assert (0 ≤ Z.land (Z.shiftr status 8) 255)%Z
    by (apply Z.land_nonneg; right; lia).
  lia.
Qed.

Section ProcessProperties.

Variable MarshalIndent : list Server → string + string.
Variable ReadFile : string → string + string.
Variable Unmarshal : string → list Server * nat.
Variable rgbterm_String : string → Z → Z → Z → Z → Z → Z → string.
Variable log_header : string.
Variable RuneCountInString : string → nat.
Variable pmrun : nat → list string → Launch.
Variable growslice : nat → nat.

Local Abbreviation execCommand' := (execCommand log_header pmrun).
Local Abbreviation exec_range' :=
  (exec_range rgbterm_String log_header RuneCountInString pmrun).
Local Abbreviation reports' :=
  (reports rgbterm_String RuneCountInString pmrun).
Local Abbreviation execAction' :=
  (execAction ReadFile Unmarshal rgbterm_String log_header RuneCountInString
              pmrun growslice).
Local Abbreviation listAction' :=
  (listAction MarshalIndent ReadFile Unmarshal growslice).

(** Every format prints and returns: nothing goes to standard error and
    no helper is launched. *)
Lemma formatList_prints (servers : list Server) (format : string) (w : world) :
  ∃ text,
    formatList MarshalIndent servers format w
    = (Done tt, World (stdout w +:+ text) (stderr w) (launched w)).
Proof.
  unfold formatList. destruct (String.eqb format "names").
  - unfold listNamesOutput, Println, Print. eauto.
  - destruct (String.eqb format "json").
    + unfold printJSONOutput, Println, Print.
      destruct (MarshalIndent servers); eauto.
    + rewrite columnarOutput_lines. eauto.
Qed.

(** X7.  Any format other than [names] and [json] is the columnar one: a line
    [environment name [tags]] for every server, in order. *)
Theorem formatList_columnar (servers : list Server) (format : string)
    (w : world) :
  format ≠ "names" → format ≠ "json" →
  formatList MarshalIndent servers format w
  = (Done tt,
     World (stdout w +:+ String.concat "" (map columnar_line servers))
           (stderr w) (launched w)).
Proof.
  intros Hnames Hjson. unfold formatList.
  destruct (String.eqb_spec format "names") as [|_]; [done|].
  destruct (String.eqb_spec format "json") as [|_]; [done|].
  apply columnarOutput_lines.
Qed.

(** X8.  The exit code that [execCommand] returns for a helper that started
    lies between -1 and 255, and it is -1 exactly when the helper's wait
    status is that of a process that did not exit by itself. *)
Theorem execCommand_exit_code_range server user cmd w er out err :
  pmrun (length (launched w)) (Command_args server user cmd)
  = Started er out err →
  ∃ code,
    (execCommand' server user cmd w).1 = Done (code, out, err)
    ∧ (-1 ≤ code ≤ 255)%Z
    ∧ (code = (-1)%Z
       ↔ ∃ status, er = Some (ExitError (SysWaitStatus status))
                   ∧ Exited status = false).
Proof.
  intros Hrun. exists (exit_code er).
  rewrite (execCommand_started _ _ _ _ _ _ _ _ _ Hrun).
  split; [done|].
  destruct er as [[[status|]|]|]; cbn [exit_code].
  - split; [apply ExitStatus_range|]. rewrite ExitStatus_negative.
    split; [by eauto | by intros (? & [= <-] & ?)].
  - split; [lia|]. split; [lia | by intros (? & ? & _)].
  - split; [lia|]. split; [lia | by intros (? & ? & _)].
  - split; [lia|]. split; [lia | by intros (? & ? & _)].
Qed.

(** The text on standard output after the loop of the [exec] action is
    made of the reports of the servers dispatched, in order. *)
Lemma exec_range_reports (servers : list Server) (user cmd : string) :
  ∀ w, stdout (exec_range' servers user cmd w).2
       = stdout w +:+ reports' (length (launched w)) servers user cmd.
Proof.
  induction servers as [|server rest IH]; intros w.
  - cbn. by rewrite string_app_nil_r.
  - cbn [reports].
    destruct (pmrun (length (launched w)) (Command_args server user cmd))
      as [msg | er out err] eqn:Hrun.
    + cbn [exec_range]. unfold pbind at 1.
      rewrite (execCommand_start_failed _ _ _ _ _ _ _ Hrun).
      cbn. by rewrite string_app_nil_r.
    + rewrite (exec_range_cons_started _ _ _ _ _ _ _ _ _ _ _ _ Hrun).
      rewrite IH. cbn [stdout launched].
      rewrite length_app. cbn [length]. rewrite Nat.add_1_r.
      by rewrite string_app_assoc.
Qed.

(** Either every helper starts, or there is a first one that does not. *)
Lemma starts_or_fails (servers : list Server) (user cmd : string) :
  ∀ base,
    starts pmrun base servers user cmd
    ∨ ∃ pre x post msg,
        servers = pre ++ x :: post
        ∧ starts pmrun base pre user cmd
        ∧ pmrun (base + length pre) (Command_args x user cmd)
          = StartFailed msg.
Proof.
  induction servers as [|server rest IH]; intros base.
  - left. intros i x Hx. by rewrite lookup_nil in Hx.
  - destruct (pmrun base (Command_args server user cmd))
      as [msg | er out err] eqn:Hrun.
    + right. exists [], server, rest, msg. cbn [length app].
      rewrite Nat.add_0_r. split; [done|]. split; [|done].
      intros i x Hx. by rewrite lookup_nil in Hx.
    + assert (Hcons : ∀ l, starts pmrun (S base) l user cmd →
                           starts pmrun base (server :: l) user cmd).
      { intros l Hl [|i] x Hx.
        - injection Hx as <-. rewrite Nat.add_0_r. eauto.
        - rewrite Nat.add_succ_r. by apply Hl. }
      destruct (IH (S base)) as [Hall | (pre & x & post & msg & -> & Hpre & Hfail)].
      * left. by apply Hcons.
      * right. exists (server :: pre), x, post, msg.
        split; [done|]. split; [by apply Hcons|].
        cbn [length]. by rewrite Nat.add_succ_r.
Qed.

(** X9.  When the inventory file cannot be read, either action prints the
    error on a line of standard output and ends the process with
    status 1: nothing is selected, listed or dispatched, and nothing
    goes to standard error. *)
Theorem getServers_unreadable configFile environment tags format user cmd err :
  ReadFile configFile = inr err →
  listAction' configFile environment tags format world0
  = (Exit 1%Z, World (err +:+ nl) "" [])
  ∧ execAction' configFile environment tags user cmd world0
    = (Exit 1%Z, World (err +:+ nl) "" []).
Proof.
  intros Hread. unfold listAction, execAction, getServers.
  rewrite Hread. by split.
Qed.

(** X10.  When the inventory file can be read, the [list] action prints the
    selection in the format asked for and one more newline, and returns:
    the process ends with status 0, nothing has gone to standard error
    and no helper has been launched, whatever the format and whatever
    the encoder answers. *)
Theorem listAction_readable configFile environment tags format
    raw inventory spare :
  ReadFile configFile = inl raw → Unmarshal raw = (inventory, spare) →
  let sel := selected inventory environment (Split tags ",") in
  let run := listAction' configFile environment tags format world0 in
  ∃ text,
    formatList MarshalIndent sel format world0 = (Done tt, World text "" [])
    ∧ run = (Done tt, World (text +:+ nl) "" [])
    ∧ exit_status run = 0%Z.
Proof.
  intros Hread Hdecode sel run.
  destruct (formatList_prints sel format world0) as [text Htext].
  change (stdout world0 +:+ text) with text in Htext.
  change (stderr world0) with "" in Htext.
  change (launched world0) with (@nil (list string)) in Htext.
  exists text. split; [done|].
  assert (run = (Done tt, World (text +:+ nl) "" [])) as ->; [|done].
  unfold run, listAction. unfold pbind at 1.
  rewrite (getServers_read _ _ _ _ _ _ _ Hread Hdecode).
  unfold pbind at 1. rewrite selectServers_selected.
  unfold pbind. fold sel. by rewrite Htext.
Qed.

(** X11.  When the inventory file can be read, the [exec] action has printed,
    when the process ends, the reports of the selected servers in their
    order up to the first helper that did not start, followed by one
    newline when every helper started. *)
Theorem execAction_reports configFile environment tags user cmd
    raw inventory spare :
  ReadFile configFile = inl raw → Unmarshal raw = (inventory, spare) →
  let sel := selected inventory environment (Split tags ",") in
  let run := execAction' configFile environment tags user cmd world0 in
  stdout run.2
  = reports' 0 sel user cmd
    +:+ (match run.1 with Done _ => nl | Exit _ => "" end).
Proof.
  intros Hread Hdecode sel run.
  assert (Hrun : run = (exec_range' sel user cmd ;;; Println "") world0)
    by (by apply (execAction_dispatch _ _ _ _ _ _ _ _ _ _ _ _
                    raw inventory spare)).
  pose proof (exec_range_reports sel user cmd world0) as Hout.
  rewrite Hrun. unfold pbind.
  destruct (exec_range' sel user cmd world0) as [[[]|status] w'].
  - cbn in *. by rewrite Hout.
  - cbn in *. by rewrite Hout, string_app_nil_r.
Qed.

(** X12.  When the inventory file can be read, the [exec] action ends the
    process with status 0 when every helper of the selection starts and
    with status 1 otherwise; the selection itself never fails. *)
Theorem execAction_status_zero_or_one configFile environment tags user cmd
    raw inventory spare :
  ReadFile configFile = inl raw → Unmarshal raw = (inventory, spare) →
  let sel := selected inventory environment (Split tags ",") in
  let run := execAction' configFile environment tags user cmd world0 in
  (starts pmrun 0 sel user cmd ∧ exit_status run = 0%Z)
  ∨ (¬ starts pmrun 0 sel user cmd ∧ exit_status run = 1%Z).
Proof.
  intros Hread Hdecode sel run.
  assert (Hrun : run = (exec_range' sel user cmd ;;; Println "") world0)
    by (by apply (execAction_dispatch _ _ _ _ _ _ _ _ _ _ _ _
                    raw inventory spare)).
  destruct (starts_or_fails sel user cmd 0)
    as [Hall | (pre & x & post & msg & Hsel & Hpre & Hfail)].
  - left. split; [done|].
    destruct (exec_range_started rgbterm_String log_header
                RuneCountInString pmrun sel user cmd world0 Hall)
      as [text Htext].
    rewrite Hrun. unfold pbind. by rewrite Htext.
  - right. split.
    + intros Hall.
      destruct (Hall (length pre) x) as (er & out & err & Hstarted).
      { rewrite Hsel. by rewrite list_lookup_middle. }
      congruence.
    + destruct (exec_range_start_failed rgbterm_String log_header
                  RuneCountInString pmrun pre x post user cmd msg
                  world0 Hpre Hfail) as (text & _ & Hexit).
      rewrite Hrun, Hsel. unfold pbind. by rewrite Hexit.
Qed.

End ProcessProperties.

(** ** The further properties on the scenario *)

Lemma same_tags_example (x : string) :
  x ∈ ["web"; "db"; "web"] ↔ x ∈ ["db"; "web"].
Proof. rewrite !elem_of_cons, !elem_of_nil. tauto. Qed.

Lemma contains_as_set_witness :
  (contains ["web"; "db"; "web"] "db" = true ↔ "db" ∈ ["web"; "db"; "web"])
  ∧ contains ["web"; "db"; "web"] "db" = contains ["db"; "web"] "db".
Proof.
  exact (contains_as_set ["web"; "db"; "web"] ["db"; "web"] "db"
           same_tags_example).
Defined.

Lemma select_elem_of_witness :
  ∃ l, select doubling scenario_heap scenario_slice "prod" ["!web"] = Some l
    ∧ ∀ x, x ∈ l
        ↔ x ∈ scenario
          ∧ ("prod" = "" ∨ Environment x = "prod")
          ∧ ∀ tag, tag ∈ ["!web"] →
              if HasPrefix tag "!"
              then TrimPrefix tag "!" ∉ Tags x
              else tag ∈ Tags x.
Proof.
  exact (select_elem_of doubling scenario_heap scenario_slice scenario
           "prod" ["!web"] scenario_wf eq_refl).
Defined.

Lemma select_same_expressions_witness :
  select doubling scenario_heap scenario_slice "prod" ["web"; "db"; "web"]
  = select doubling scenario_heap scenario_slice "prod" ["db"; "web"].
Proof.
  exact (select_same_expressions doubling scenario_heap scenario_slice
           scenario "prod" ["web"; "db"; "web"] ["db"; "web"]
           scenario_wf eq_refl same_tags_example).
Defined.

Lemma select_app_witness :
  ∃ h1 s1,
    filterServers doubling scenario_slice "prod" ["db"] scenario_heap
    = Some (s1, h1)
    ∧ select doubling h1 s1 "" ["web"]
      = select doubling scenario_heap scenario_slice "prod" (["db"] ++ ["web"]).
Proof.
  exact (select_app doubling scenario_heap scenario_slice scenario
           "prod" ["db"] ["web"] scenario_wf eq_refl).
Defined.

Lemma contradiction_example :
  "db" ∈ ["web"; "!db"; "db"] ∧ "!" +:+ "db" ∈ ["web"; "!db"; "db"].
Proof. split; rewrite !elem_of_cons; auto. Qed.

Lemma select_contradiction_witness :
  select doubling scenario_heap scenario_slice "" ["web"; "!db"; "db"]
  = Some [].
Proof.
  exact (select_contradiction doubling scenario_heap scenario_slice scenario
           "" ["web"; "!db"; "db"] "db" scenario_wf eq_refl eq_refl
           (proj1 contradiction_example) (proj2 contradiction_example)).
Defined.

Lemma select_leaves_old_servers_witness :
  ∃ h' s' I',
    filterServers doubling scenario_slice "prod" ["web"] scenario_heap
    = Some (s', h')
    ∧ contents h' scenario_slice = Some I'
    ∧ ∀ y, y ∈ I' → y ∈ scenario.
Proof.
  exact (select_leaves_old_servers doubling scenario_heap scenario_slice
           scenario "prod" ["web"] scenario_wf eq_refl).
Defined.

Lemma format_columnar_example : "" ≠ "names" ∧ "" ≠ "json".
Proof. by split. Qed.

Lemma formatList_columnar_witness :
  formatList demo_MarshalIndent scenario "" world0
  = (Done tt,
     World (stdout world0 +:+ String.concat "" (map columnar_line scenario))
           (stderr world0) (launched world0)).
Proof.
  exact (formatList_columnar demo_MarshalIndent scenario "" world0
           (proj1 format_columnar_example) (proj2 format_columnar_example)).
Defined.

Example formatList_columnar_scenario :
  stdout (formatList demo_MarshalIndent scenario "" world0).2
  = "prod A [db]" +:+ nl +:+ "staging B [web]" +:+ nl
    +:+ "prod C [web db]" +:+ nl.
Proof. by vm_compute. Qed.

Lemma execCommand_exit_code_range_witness :
  ∃ code,
    (execCommand "" demo_pmrun serverB "root" "uptime" world0).1
    = Done (code, "", "denied")
    ∧ (-1 ≤ code ≤ 255)%Z
    ∧ (code = (-1)%Z
       ↔ ∃ status,
           Some (ExitError (SysWaitStatus 512))
           = Some (ExitError (SysWaitStatus status))
           ∧ Exited status = false).
Proof.
  exact (execCommand_exit_code_range "" demo_pmrun serverB "root" "uptime"
           world0 (Some (ExitError (SysWaitStatus 512))) "" "denied" eq_refl).
Defined.

Lemma getServers_unreadable_witness :
  listAction demo_MarshalIndent demo_ReadFile_missing demo_Unmarshal doubling
    "servers.json" "prod" "web" "names" world0
  = (Exit 1%Z,
     World ("open servers.json: no such file or directory" +:+ nl) "" [])
  ∧ execAction demo_ReadFile_missing demo_Unmarshal demo_rgbterm ""
      String.length demo_pmrun doubling
      "servers.json" "prod" "web" "root" "uptime" world0
    = (Exit 1%Z,
       World ("open servers.json: no such file or directory" +:+ nl) "" []).
Proof.
  exact (getServers_unreadable demo_MarshalIndent demo_ReadFile_missing
           demo_Unmarshal demo_rgbterm "" String.length demo_pmrun doubling
           "servers.json" "prod" "web" "names" "root" "uptime"
           "open servers.json: no such file or directory" eq_refl).
Defined.

Lemma listAction_readable_witness :
  let sel := selected scenario "prod" (Split "db" ",") in
  let run := listAction demo_MarshalIndent demo_ReadFile demo_Unmarshal
               doubling "servers.json" "prod" "db" "names" world0 in
  ∃ text,
    formatList demo_MarshalIndent sel "names" world0
    = (Done tt, World text "" [])
    ∧ run = (Done tt, World (text +:+ nl) "" [])
    ∧ exit_status run = 0%Z.
Proof.
  exact (listAction_readable demo_MarshalIndent demo_ReadFile demo_Unmarshal
           doubling "servers.json" "prod" "db" "names" "inventory" scenario 1
           eq_refl eq_refl).
Defined.

Lemma execAction_reports_witness :
  let sel := selected scenario "" (Split "db" ",") in
  let run := execAction demo_ReadFile demo_Unmarshal demo_rgbterm ""
               String.length demo_pmrun doubling
               "servers.json" "" "db" "root" "uptime" world0 in
  stdout run.2
  = reports demo_rgbterm String.length demo_pmrun 0 sel "root" "uptime"
    +:+ (match run.1 with Done _ => nl | Exit _ => "" end).
Proof.
  exact (execAction_reports demo_ReadFile demo_Unmarshal demo_rgbterm ""
           String.length demo_pmrun doubling
           "servers.json" "" "db" "root" "uptime" "inventory" scenario 1
           eq_refl eq_refl).
Defined.

Lemma execAction_status_zero_or_one_witness :
  let sel := selected scenario "" (Split "!web" ",") in
  let run := execAction demo_ReadFile demo_Unmarshal demo_rgbterm ""
               String.length demo_pmrun doubling
               "servers.json" "" "!web" "root" "uptime" world0 in
  (starts demo_pmrun 0 sel "root" "uptime" ∧ exit_status run = 0%Z)
  ∨ (¬ starts demo_pmrun 0 sel "root" "uptime" ∧ exit_status run = 1%Z).
Proof.
  exact (execAction_status_zero_or_one demo_ReadFile demo_Unmarshal
           demo_rgbterm "" String.length demo_pmrun doubling
           "servers.json" "" "!web" "root" "uptime" "inventory" scenario 1
           eq_refl eq_refl).
Defined.
